(** * Shallow embedding of [conflict-resolver.py] (MergeConflictResolver)

    Python [str] values are modelled as [list ascii]: a character is a code
    point in 0..255 (Latin-1), which is enough for the regular expressions
    of the resolver, whose character classes are evaluated as CPython does
    for [str] patterns ([\s] = [str.isspace], [\w] = [str.isalnum] or [_],
    [\d] = decimal digit).  Dicts are association lists that keep insertion
    order and overwrite in place; sets are duplicate-free lists whose
    iteration order is a parameter ([set_iter]). *)

From Stdlib Require Import Ascii String.
From stdpp Require Import base list sorting.

Abbreviation str := (list ascii).

Definition L (s : string) : str := list_ascii_of_string s.
Arguments L s%_string.

Definition nl : ascii := "010"%char.
Definition tab : ascii := "009"%char.
Definition dquote : ascii := "034"%char.

(** A buffer given as its lines, joined with newlines. *)
Fixpoint join (sep : str) (xs : list str) : str :=
  match xs with
  | [] => []
  | [x] => x
  | x :: xs' => x ++ sep ++ join sep xs'
  end.

Definition J (xs : list string) : str := join [nl] (map L xs).
Notation "'J[' x ; .. ; y ']'" := (J (cons x%string .. (cons y%string nil) ..))
  (at level 0, x at level 200, y at level 200).

(** ** Characters *)

Definition code (c : ascii) : nat := nat_of_ascii c.

Definition in_range (lo hi n : nat) : bool := (lo <=? n) && (n <=? hi).

(** [str.isspace] / regex [\s] on code points 0..255. *)
Definition is_space (c : ascii) : bool :=
  let n := code c in
  in_range 9 13 n || in_range 28 32 n || (n =? 133) || (n =? 160).

(** Regex [\w]: alphanumeric in the Unicode sense, or underscore. *)
Definition is_word (c : ascii) : bool :=
  let n := code c in
  in_range 48 57 n || in_range 65 90 n || in_range 97 122 n || (n =? 95)
  || (n =? 170) || in_range 178 179 n || (n =? 181) || in_range 185 186 n
  || in_range 188 190 n || in_range 192 214 n || in_range 216 246 n
  || in_range 248 255 n.

(** Regex [\d]: decimal digits (the only ones below 256 are 0-9). *)
Definition is_digit (c : ascii) : bool := in_range 48 57 (code c).

Definition ascii_eqb (a b : ascii) : bool :=
  if ascii_dec a b then true else false.

Definition str_eqb (a b : str) : bool :=
  if List.list_eq_dec ascii_dec a b then true else false.

(** ** String operations of Python *)

Fixpoint prefixb (p s : str) : bool :=
  match p, s with
  | [], _ => true
  | c :: p', d :: s' => ascii_eqb c d && prefixb p' s'
  | _ :: _, [] => false
  end.

(** [p in s] *)
Fixpoint contains (p s : str) : bool :=
  prefixb p s || match s with [] => false | _ :: s' => contains p s' end.

Fixpoint span (f : ascii -> bool) (s : str) : str * str :=
  match s with
  | c :: s' => if f c then let '(a, b) := span f s' in (c :: a, b) else ([], s)
  | [] => ([], [])
  end.

Fixpoint drop_while (f : ascii -> bool) (s : str) : str :=
  match s with
  | c :: s' => if f c then drop_while f s' else s
  | [] => []
  end.

Definition lstrip (s : str) : str := drop_while is_space s.
Definition rstrip (s : str) : str := rev (drop_while is_space (rev s)).
Definition strip (s : str) : str := lstrip (rstrip s).

(** [s.split('\n')] *)
Fixpoint split_nl (s : str) : list str :=
  match s with
  | [] => [[]]
  | c :: s' =>
      if ascii_eqb c nl then [] :: split_nl s'
      else match split_nl s' with
           | l :: ls => (c :: l) :: ls
           | [] => [[c]]
           end
  end.

(** [s.replace(old, new)]: every non-overlapping occurrence, left to right. *)
Fixpoint replace_fuel (fuel : nat) (old new s : str) : str :=
  match fuel with
  | 0 => s
  | S f =>
      match s with
      | [] => []
      | c :: t =>
          if prefixb old s then new ++ replace_fuel f old new (drop (length old) s)
          else c :: replace_fuel f old new t
      end
  end.

Definition py_replace (old new s : str) : str :=
  match old with
  | [] => new ++ List.flat_map (fun c => c :: new) s
  | _ => replace_fuel (length s) old new s
  end.

(** [f"{n}"] and [int(digits)]. *)
Definition digit_char (d : nat) : ascii := ascii_of_nat (48 + d).

Fixpoint show_nat_aux (fuel n : nat) (acc : str) : str :=
  match fuel with
  | 0 => acc
  | S f =>
      let acc' := digit_char (n mod 10) :: acc in
      if n <? 10 then acc' else show_nat_aux f (n / 10) acc'
  end.

Definition show_nat (n : nat) : str := show_nat_aux (S n) n [].

Definition digit_step (acc : nat) (c : ascii) : nat := acc * 10 + (code c - 48).

Definition int_of_digits (ds : str) : nat := fold_left digit_step ds 0.

(** ** Dicts (insertion ordered) and sets *)

Fixpoint dict_set {V} (k : str) (v : V) (d : list (str * V)) : list (str * V) :=
  match d with
  | [] => [(k, v)]
  | (k', v') :: d' => if str_eqb k k' then (k', v) :: d' else (k', v') :: dict_set k v d'
  end.

Fixpoint dict_get {V} (k : str) (d : list (str * V)) : option V :=
  match d with
  | [] => None
  | (k', v) :: d' => if str_eqb k k' then Some v else dict_get k d'
  end.

Definition keys {V} (d : list (str * V)) : list str := map fst d.

Definition mem (k : str) (l : list str) : bool := existsb (str_eqb k) l.

Definition set_add (k : str) (s : list str) : list str :=
  if mem k s then s else s ++ [k].

(** [set(a) - set(b)] for a duplicate-free [a], before iteration. *)
Definition set_minus (a b : list str) : list str :=
  List.filter (fun k => negb (mem k b)) a.

(** Python's [<] on [str]: code-point lexicographic order. *)
Fixpoint str_leb (a b : str) : bool :=
  match a, b with
  | [], _ => true
  | _ :: _, [] => false
  | x :: a', y :: b' =>
      if code x <? code y then true
      else if code x =? code y then str_leb a' b' else false
  end.

Definition str_le (a b : str) : Prop := str_leb a b = true.

#[global] Instance str_le_dec : RelDecision str_le :=
  fun a b => decide (str_leb a b = true).

(** [sorted(xs)]: CPython sorts with a stable merge sort. *)
Definition py_sorted (xs : list str) : list str := merge_sort str_le xs.

(** ** [parse_conflict_sections]

    The pattern
    [<<<<<<< ([^\n]+)\n(.*?)\n=======\n(.*?)\n>>>>>>> ([^\n]+)] with
    [re.DOTALL], enumerated by [re.finditer].  Group 1 and group 4 are
    greedy runs of non-newlines; groups 2 and 3 are lazy, so the matcher
    tries the shortest group 2 first and, for it, the shortest group 3. *)

Definition START_MARK : str := L "<<<<<<< ".
Definition SEP_LINE : str := [nl] ++ L "=======" ++ [nl].
Definition END_MARK : str := [nl] ++ L ">>>>>>> ".

Record conflict := {
  current_ref : str;
  current_content : str;
  incoming_ref : str;
  incoming_content : str;
  full_match : str
}.

(** [(.*?)\n>>>>>>> ([^\n]+)]: group 3, group 4 and the text after. *)
Fixpoint find_incoming (t : str) : option (str * str * str) :=
  let here :=
    if prefixb END_MARK t then
      let '(g4, rest) := span (fun c => negb (ascii_eqb c nl)) (drop 9 t) in
      match g4 with [] => None | _ => Some ([], g4, rest) end
    else None in
  match here with
  | Some r => Some r
  | None =>
      match t with
      | [] => None
      | c :: t' =>
          match find_incoming t' with
          | Some (g3, g4, rest) => Some (c :: g3, g4, rest)
          | None => None
          end
      end
  end.

(** [(.*?)\n=======\n] followed by the rest of the pattern. *)
Fixpoint find_separator (t : str) : option (str * str * str * str) :=
  let here := if prefixb SEP_LINE t then find_incoming (drop 9 t) else None in
  match here with
  | Some (g3, g4, rest) => Some ([], g3, g4, rest)
  | None =>
      match t with
      | [] => None
      | c :: t' =>
          match find_separator t' with
          | Some (g2, g3, g4, rest) => Some (c :: g2, g3, g4, rest)
          | None => None
          end
      end
  end.

(** An attempt of the pattern at the start of [s]. *)
Definition conflict_match_at (s : str) : option (conflict * str) :=
  if prefixb START_MARK s then
    match span (fun c => negb (ascii_eqb c nl)) (drop 8 s) with
    | (g1, _ :: r) =>
        match g1 with
        | [] => None
        | _ =>
            match find_separator r with
            | Some (g2, g3, g4, rest) =>
                Some ({| current_ref := g1; current_content := g2;
                         incoming_ref := g4; incoming_content := g3;
                         full_match := START_MARK ++ g1 ++ [nl] ++ g2 ++ SEP_LINE
                                       ++ g3 ++ END_MARK ++ g4 |}, rest)
            | None => None
            end
        end
    | (_, []) => None
    end
  else None.

(** [re.finditer]: leftmost match, then resume after it. *)
Fixpoint scan_conflicts (fuel : nat) (s : str) : list conflict :=
  match fuel with
  | 0 => []
  | S f =>
      match s with
      | [] => []
      | _ :: t =>
          match conflict_match_at s with
          | Some (b, rest) => b :: scan_conflicts f rest
          | None => scan_conflicts f t
          end
      end
  end.

Definition parse_conflict_sections (content : str) : list conflict :=
  scan_conflicts (length content) content.

(** [has_merge_conflicts] on the file's text. *)
Definition has_merge_conflicts (content : str) : bool :=
  contains START_MARK content && contains (L "=======") content
  && contains (L ">>>>>>> ") content.

(** ** [extract_oneof_entries]

    [re.match(r'(\w+)\s+(\w+)\s*=\s*(\d+);', line)]: all quantifiers are
    greedy over disjoint classes, so no backtracking can change the match. *)
Definition field_match (line : str) : option (str * str * str) :=
  let '(w1, r1) := span is_word line in
  let '(s1, r2) := span is_space r1 in
  let '(w2, r3) := span is_word r2 in
  let '(_, r4) := span is_space r3 in
  match w1, s1, w2 with
  | _ :: _, _ :: _, _ :: _ =>
      match r4 with
      | c :: r5 =>
          if ascii_eqb c "="%char then
            let '(ds, r7) := span is_digit (drop_while is_space r5) in
            match ds, r7 with
            | _ :: _, c' :: _ => if ascii_eqb c' ";"%char then Some (w1, w2, ds) else None
            | _, _ => None
            end
          else None
      | [] => None
      end
  | _, _, _ => None
  end.

Definition is_nil (s : str) : bool := match s with [] => true | _ => false end.

Definition oneof_step (st : list (str * (str * nat)) * nat) (line : str)
    : list (str * (str * nat)) * nat :=
  let '(entries, max_number) := st in
  let line := strip line in
  if is_nil line || prefixb (L "//") line then st
  else match field_match line with
       | Some (field_type, field_name, field_number) =>
           let n := int_of_digits field_number in
           (dict_set field_name (field_type, n) entries, Nat.max max_number n)
       | None => st
       end.

Definition extract_oneof_entries (content : str) : list (str * (str * nat)) * nat :=
  fold_left oneof_step (split_nl content) ([], 0).

(** The declarations the loop above matches, in text order, duplicates
    kept: (type, name, number). *)
Definition line_decl (line : str) : list (str * str * nat) :=
  let line := strip line in
  if is_nil line || prefixb (L "//") line then []
  else match field_match line with
       | Some (ty, nm, ds) => [(ty, nm, int_of_digits ds)]
       | None => []
       end.

Definition field_decls (content : str) : list (str * str * nat) :=
  List.flat_map line_decl (split_nl content).

Definition decl_number (d : str * str * nat) : nat := let '(_, _, n) := d in n.
Definition decl_name (d : str * str * nat) : str := let '(_, nm, _) := d in nm.

(** ** [extract_import_statements] *)

(** A double-quoted path at the start of [s]: the tail of both import
    patterns, with the double quote written as code 34. *)
Definition quoted_path (s : str) : option str :=
  match s with
  | c :: r =>
      if ascii_eqb c dquote then
        match span (fun d => negb (ascii_eqb d dquote)) r with
        | (p, q :: _) => if is_nil p then None else Some p
        | (_, []) => None
        end
      else None
  | [] => None
  end.

(** The direct-import pattern: blanks, then a quoted path. *)
Definition direct_import (line : str) : option str :=
  quoted_path (drop_while is_space line).

(** The aliased-import pattern: blanks, a word, blanks, a quoted path. *)
Definition aliased_import (line : str) : option str :=
  let '(w, r) := span is_word (drop_while is_space line) in
  let '(sp, r2) := span is_space r in
  match w, sp with
  | _ :: _, _ :: _ => quoted_path r2
  | _, _ => None
  end.

Definition match_import (line : str) : option str :=
  match direct_import line with
  | Some p => Some p
  | None => aliased_import line
  end.

Definition add_import (line : str) (imports : list str) : list str :=
  match match_import line with
  | Some p => set_add p imports
  | None => imports
  end.

Definition import_step (st : bool * list str) (line : str) : bool * list str :=
  let '(in_import_block, imports) := st in
  let line := strip line in
  if prefixb (L "import (") line then (true, imports)
  else if str_eqb line (L ")") && in_import_block then (false, imports)
  else if prefixb (L "import ") line then (in_import_block, add_import line imports)
  else if in_import_block && negb (is_nil line) && negb (prefixb (L "//") line)
  then (in_import_block, add_import line imports)
  else (in_import_block, imports).

Definition extract_import_statements (content : str) : list str :=
  snd (fold_left import_step (split_nl content) (false, [])).

(** ** [extract_switch_cases]

    [case\s*\*[^:]*\.([^:]+):(.*?)(?=case\s|\n\s*default\s*:|$)] with
    [re.DOTALL].  [[^:]*\.] backtracks to the last dot before the first
    colon that leaves group 1 non-empty; group 2 is lazy, up to the first
    position where the lookahead holds. *)

Fixpoint after_last_dot (seg : str) : option str :=
  match seg with
  | [] => None
  | c :: t =>
      match after_last_dot t with
      | Some g => Some g
      | None => if ascii_eqb c "."%char && negb (is_nil t) then Some t else None
      end
  end.

(** [$] without MULTILINE: end of text, or before a final newline. *)
Definition at_end (t : str) : bool :=
  match t with
  | [] => true
  | [c] => ascii_eqb c nl
  | _ => false
  end.

Definition case_lookahead (t : str) : bool :=
  (prefixb (L "case") t
   && match drop 4 t with c :: _ => is_space c | [] => false end)
  || match t with
     | c :: t' =>
         ascii_eqb c nl
         && (let t'' := drop_while is_space t' in
             prefixb (L "default") t''
             && match drop_while is_space (drop 7 t'') with
                | d :: _ => ascii_eqb d ":"%char
                | [] => false
                end)
     | [] => false
     end
  || at_end t.

Fixpoint lazy_body (t : str) : str * str :=
  if case_lookahead t then ([], t)
  else match t with
       | [] => ([], [])
       | c :: t' => let '(g, r) := lazy_body t' in (c :: g, r)
       end.

Definition case_match_at (s : str) : option (str * str * str) :=
  if prefixb (L "case") s then
    match drop_while is_space (drop 4 s) with
    | c :: s3 =>
        if ascii_eqb c "*"%char then
          match span (fun d => negb (ascii_eqb d ":"%char)) s3 with
          | (seg, _ :: r) =>
              match after_last_dot seg with
              | Some g1 => let '(g2, rest) := lazy_body r in Some (g1, g2, rest)
              | None => None
              end
          | (_, []) => None
          end
        else None
    | [] => None
    end
  else None.

Fixpoint scan_cases (fuel : nat) (s : str) : list (str * str) :=
  match fuel with
  | 0 => []
  | S f =>
      match s with
      | [] => []
      | _ :: t =>
          match case_match_at s with
          | Some (g1, g2, rest) => (g1, g2) :: scan_cases f rest
          | None => scan_cases f t
          end
      end
  end.

Definition case_text (case_type case_body : str) : str :=
  L "case *spb." ++ case_type ++ L ":" ++ [nl] ++ case_body.

Definition extract_switch_cases (content : str) : list (str * str) :=
  fold_left (fun cases '(g1, g2) =>
               let case_type := strip g1 in
               dict_set case_type (case_text case_type (strip g2)) cases)
            (scan_cases (length content) content) [].

(** ** The three strategies

    A Python [set] of strings is iterated in hash order, which depends on
    [PYTHONHASHSEED]; [set_iter] stands for that order: it receives the
    set's elements and returns them in iteration order. *)

Section Strategies.
Variable set_iter : list str -> list str.

(** [resolve_proto_conflict]: the body of its loop, for one block. *)
Fixpoint additional_lines (current_entries : list (str * (str * nat)))
    (next_number : nat) (names : list str) : list str :=
  match names with
  | [] => []
  | field_name :: names' =>
      let field_type :=
        match dict_get field_name current_entries with
        | Some (ty, _) => ty
        | None => []
        end in
      (L "    " ++ field_type ++ L " " ++ field_name ++ L " = "
         ++ show_nat next_number ++ L ";")
        :: additional_lines current_entries (S next_number) names'
  end.

Definition proto_merge_section (current incoming : str) : str :=
  let '(current_entries, current_max) := extract_oneof_entries current in
  let '(incoming_entries, incoming_max) := extract_oneof_entries incoming in
  let current_only := set_iter (set_minus (keys current_entries) (keys incoming_entries)) in
  let merged_section := incoming in
  match current_only with
  | [] => merged_section
  | _ :: _ =>
      let next_number := Nat.max incoming_max current_max + 1 in
      match additional_lines current_entries next_number (py_sorted current_only) with
      | [] => merged_section
      | lines => rstrip merged_section ++ [nl] ++ join [nl] lines
      end
  end.

Definition resolve_proto_conflict (content : str) : str :=
  fold_left (fun resolved c =>
               py_replace (full_match c)
                 (proto_merge_section (current_content c) (incoming_content c)) resolved)
            (parse_conflict_sections content) content.

(** [resolve_go_conflict]: the merged text of one block ... *)
Definition go_merge_section (current incoming : str) : str :=
  let current_cases := extract_switch_cases current in
  let incoming_cases := extract_switch_cases incoming in
  let merged_section := incoming in
  let current_only_cases := set_iter (set_minus (keys current_cases) (keys incoming_cases)) in
  merged_section
    ++ List.flat_map (fun case_type =>
                        [nl; tab] ++ match dict_get case_type current_cases with
                                     | Some code => code
                                     | None => []
                                     end)
                     (py_sorted current_only_cases).

(** ... and the imports it reports ([Would need to add import: ...])
    without touching the text. *)
Definition go_reported_imports (current incoming : str) : list str :=
  let current_imports := extract_import_statements current in
  let incoming_imports := extract_import_statements incoming in
  let current_only_imports := set_iter (set_minus current_imports incoming_imports) in
  List.filter (fun imp => negb (contains ([dquote] ++ imp ++ [dquote]) incoming))
              (py_sorted current_only_imports).

Definition resolve_go_conflict (content : str) : str :=
  fold_left (fun resolved c =>
               py_replace (full_match c)
                 (go_merge_section (current_content c) (incoming_content c)) resolved)
            (parse_conflict_sections content) content.

End Strategies.

(** [resolve_generic_conflict]: the body of its loop, for one block. *)
Definition generic_merge_section (current incoming : str) : str :=
  let merged_section := incoming in
  if negb (is_nil (strip current)) && negb (str_eqb current incoming)
  then merged_section ++ [nl] ++ current
  else merged_section.

Definition resolve_generic_conflict (content : str) : str :=
  fold_left (fun resolved c =>
               py_replace (full_match c)
                 (generic_merge_section (current_content c) (incoming_content c)) resolved)
            (parse_conflict_sections content) content.

(** ** Per-file resolution in [resolve_all_conflicts] *)

Inductive strategy := SchemaField | ImportCase | Generic.

Definition strategy_of (file_name : str) : strategy :=
  if str_eqb file_name (L "scan_result.proto") then SchemaField
  else if str_eqb file_name (L "secret.go") then ImportCase
  else Generic.

Definition apply_strategy (set_iter : list str -> list str) (k : strategy)
    (content : str) : str :=
  match k with
  | SchemaField => resolve_proto_conflict set_iter content
  | ImportCase => resolve_go_conflict set_iter content
  | Generic => resolve_generic_conflict content
  end.

Record outcome := { fully_resolved : bool; merged_text : str }.

(** One iteration of the loop over conflicted files: a file without the
    three markers is counted as resolved as it is; otherwise the strategy
    chosen by the file name runs, and the file is counted as resolved (and
    its text replaced) unless [<<<<<<< ] is still in the result. *)
Definition resolve_file (set_iter : list str -> list str) (file_name content : str)
    : outcome :=
  if negb (has_merge_conflicts content) then
    {| fully_resolved := true; merged_text := content |}
  else
    let resolved_content := apply_strategy set_iter (strategy_of file_name) content in
    if contains START_MARK resolved_content then
      {| fully_resolved := false; merged_text := content |}
    else {| fully_resolved := true; merged_text := resolved_content |}.

(** The iteration order used when a statement fixes one: the order in
    which the elements were produced. *)
Definition insertion_order (l : list str) : list str := l.

(** ** The driver: [run_command], [has_merge_conflicts], [regenerate_pb_go]
    and [resolve_all_conflicts]

    The world is the repository's files, keyed by their path relative to
    [repo_path], and the log of the commands run so far: for each, its
    working directory ([.] for [repo_path], [binary/proto] for
    [proto_dir]), its argument list, the files it ran on and what
    [run_command] returned.  Paths are kept as [git status --porcelain]
    prints them: relative and normalised, so [repo_path / path] followed
    by [relative_to(repo_path)] gives the same text back.  What a process
    does, to its result and to the files, is the oracle [subprocess_run];
    whether a file system call raises is the oracle [io_fails], and what a
    failing [write_text] leaves behind is the oracle [write_left].  The
    [print] calls are not modelled: standard output is taken to accept
    every line. *)

(** What [run_command] gets back: [Some (success, output)], or [None]
    for an exception it lets through. *)
Record call := {
  cwd : str;
  argv : list str;
  tree : list (str * str);
  returned : option (bool * str)
}.

Record world := {
  files : list (str * str);
  commands : list call
}.

(** How [subprocess.run(cmd, cwd=cwd, capture_output=True, text=True,
    check=True)] ends: with the process's standard output, with a
    [CalledProcessError] carrying its standard error (non-zero exit
    status), with a [FileNotFoundError] (no such program or directory),
    or with any other exception ([NotADirectoryError] or
    [PermissionError] for a bad directory or program, [UnicodeDecodeError]
    for output that is not text, ...). *)
Inductive proc_result :=
  | Completed (stdout : str)
  | CalledProcessError (stderr : str)
  | FileNotFound
  | OtherError.

Inductive io_call := Read (p : str) | Rename (src dst : str).

Definition dict_remove {V} (k : str) (d : list (str * V)) : list (str * V) :=
  List.filter (fun kv => negb (str_eqb k (fst kv))) d.

(** [str.split()]: the maximal runs of non-whitespace; [cur] is the run
    being read, reversed. *)
Fixpoint split_ws_acc (s cur : str) : list str :=
  match s with
  | [] => if is_nil cur then [] else [rev cur]
  | c :: s' =>
      if is_space c then
        if is_nil cur then split_ws_acc s' [] else rev cur :: split_ws_acc s' []
      else split_ws_acc s' (c :: cur)
  end.

Definition py_split_ws (s : str) : list str := split_ws_acc s [].

(** [xs[-1]]; [None] is the [IndexError] of an empty list. *)
Definition py_last {A} (xs : list A) : option A :=
  match xs with
  | [] => None
  | x :: _ => Some (List.last xs x)
  end.

Definition is_conflict_line (line : str) : bool :=
  prefixb (L "UU ") line || prefixb (L "AA ") line || contains (L "both modified") line.

(** The loop building [conflicted_files]; [None] if it raises. *)
Fixpoint select_conflicted (lines : list str) : option (list str) :=
  match lines with
  | [] => Some []
  | line :: lines' =>
      if is_conflict_line line then
        match py_last (py_split_ws line), select_conflicted lines' with
        | Some file_path, Some ps => Some (file_path :: ps)
        | _, _ => None
        end
      else select_conflicted lines'
  end.

(** [Path.name]: the text after the last [/]. *)
Definition path_name (p : str) : str :=
  rev (fst (span (fun c => negb (ascii_eqb c "/"%char)) (rev p))).

(** [file_path.with_suffix(f"{file_path.suffix}.backup")]: the suffix is
    put back followed by [.backup], so the name gains [.backup]. *)
Definition backup_path (p : str) : str := p ++ L ".backup".

Definition REPO : str := L ".".
Definition PROTO_DIR : str := L "binary/proto".

Definition git_status_cmd : list str := [L "git"; L "status"; L "--porcelain"].

Definition protoc_cmd : list str :=
  [L "protoc"; L "--go_out=."; L "--go_opt=paths=source_relative"; L "scan_result.proto"].

Definition git_add_cmd (file_paths : list str) : list str := [L "git"; L "add"] ++ file_paths.

Section Driver.
Variable set_iter : list str -> list str.
(** [subprocess_run cwd cmd fs]: how the process ends when the files
    are [fs], and the files once it is done ([protoc] writes the
    generated Go code, [git] writes under [.git]). *)
Variable subprocess_run : str -> list str -> list (str * str) -> proc_result * list (str * str).
Variable io_fails : io_call -> bool.
(** [write_left p text]: [None] when [p.write_text(text)] succeeds;
    [Some leftover] when it raises, [leftover] being what is then at [p]: [None]
    when [open] failed and created nothing, otherwise the empty or
    partial text written before the failure. *)
Variable write_left : str -> str -> option (option str).

Definition run_command (cwd : str) (cmd : list str) (w : world) : option (bool * str) * world :=
  let '(r, fs) := subprocess_run cwd cmd (files w) in
  let result :=
    match r with
    | Completed stdout => Some (true, stdout)
    | CalledProcessError stderr => Some (false, stderr)
    | FileNotFound => Some (false, L "Command not found: " ++ List.hd [] cmd)
    | OtherError => None
    end in
  (result, {| files := fs;
              commands := commands w ++ [{| cwd := cwd; argv := cmd; tree := files w;
                                            returned := result |}] |}).

(** [has_merge_conflicts(file_path)]; [None] when [read_text] raises,
    which nothing catches. *)
Definition has_merge_conflicts_file (file_path : str) (w : world) : option bool :=
  match dict_get file_path (files w) with
  | None => Some false
  | Some content =>
      if io_fails (Read file_path) then None else Some (has_merge_conflicts content)
  end.

(** [regenerate_pb_go()]: [Some success], or [None] when [run_command]
    raises. *)
Definition regenerate_pb_go (w : world) : option bool * world :=
  let '(result, w') := run_command PROTO_DIR protoc_cmd w in
  (option_map fst result, w').

(** One iteration of the loop over [conflicted_files]: the new world and
    [resolved_files], or [None] for an exception that escapes. *)
Definition resolve_one (dry_run : bool) (file_path : str) (w : world) (resolved : list str)
    : world * option (list str) :=
  match has_merge_conflicts_file file_path w with
  | None => (w, None)
  | Some false => (w, Some (resolved ++ [file_path]))
  | Some true =>
      match dict_get file_path (files w) with
      | None => (w, Some resolved)
      | Some original_content =>
          if io_fails (Read file_path) then (w, Some resolved) else
          let resolved_content :=
            apply_strategy set_iter (strategy_of (path_name file_path)) original_content in
          if contains START_MARK resolved_content then (w, Some resolved)
          else if dry_run then (w, Some (resolved ++ [file_path]))
          else if io_fails (Rename file_path (backup_path file_path)) then (w, Some resolved)
          else
            let fs1 := dict_set (backup_path file_path) original_content
                         (dict_remove file_path (files w)) in
            match write_left file_path resolved_content with
            | Some leftover =>
                ({| files := match leftover with
                             | None => fs1
                             | Some text => dict_set file_path text fs1
                             end;
                    commands := commands w |}, Some resolved)
            | None =>
                ({| files := dict_set file_path resolved_content fs1; commands := commands w |},
                 Some (resolved ++ [file_path]))
            end
      end
  end.

Fixpoint resolve_loop (dry_run : bool) (ps : list str) (w : world) (resolved : list str)
    : world * option (list str) :=
  match ps with
  | [] => (w, Some resolved)
  | p :: ps' =>
      match resolve_one dry_run p w resolved with
      | (w', Some resolved') => resolve_loop dry_run ps' w' resolved'
      | (w', None) => (w', None)
      end
  end.

(** [resolve_all_conflicts(dry_run)]: the final world and the value
    returned, or [None] for an exception that escapes. *)
Definition resolve_all_conflicts (dry_run : bool) (w : world) : world * option bool :=
  match run_command REPO git_status_cmd w with
  | (None, w1) => (w1, None)
  | (Some (success, git_status), w1) =>
      if negb success then (w1, Some false) else
      match select_conflicted (split_nl git_status) with
      | None => (w1, None)
      | Some [] => (w1, Some true)
      | Some conflicted_files =>
          match resolve_loop dry_run conflicted_files w1 [] with
          | (w2, None) => (w2, None)
          | (w2, Some resolved_files) =>
              let '(regenerated, w3) :=
                if existsb (fun f => str_eqb (path_name f) (L "scan_result.proto")) resolved_files
                   && negb dry_run
                then regenerate_pb_go w2 else (Some true, w2) in
              match regenerated with
              | None => (w3, None)
              | Some false => (w3, Some false)
              | Some true =>
                  if match resolved_files with [] => false | _ => true end && negb dry_run then
                    match run_command REPO (git_add_cmd resolved_files) w3 with
                    | (Some (success', _), w4) => (w4, Some success')
                    | (None, w4) => (w4, None)
                    end
                  else (w3, Some true)
              end
          end
      end
  end.

End Driver.

(** ** Auxiliary notions used by the statements *)

(** Python's strict [<] on [str]. *)
Definition str_lt (a b : str) : Prop := str_le a b /\ a <> b.

(** Number of line breaks in a text. *)
Fixpoint count_nl (s : str) : nat :=
  match s with
  | [] => 0
  | c :: s' => (if ascii_eqb c nl then 1 else 0) + count_nl s'
  end.


(** The body of the case stored under [case_type], after its header. *)
Definition case_body (content case_type : str) : str :=
  match dict_get case_type (extract_switch_cases content) with
  | Some code => drop (length (case_text case_type [])) code
  | None => []
  end.

(** [ls] with [w] appended to its last line. *)
Fixpoint app_last (ls : list str) (w : str) : list str :=
  match ls with
  | [] => []
  | [l] => [l ++ w]
  | l :: ls' => l :: app_last ls' w
  end.

(** One matched declaration, as the loop of [extract_oneof_entries]
    records it. *)
Definition decl_step (st : list (str * (str * nat)) * nat) (d : str * str * nat)
    : list (str * (str * nat)) * nat :=
  let '(entries, max_number) := st in
  let '(ty, nm, n) := d in
  (dict_set nm (ty, n) entries, Nat.max max_number n).

(** The type the current side gives to [field_name]. *)
Definition type_of (entries : list (str * (str * nat))) (field_name : str) : str :=
  match dict_get field_name entries with
  | Some (ty, _) => ty
  | None => []
  end.

(** The declarations appended for [names]: consecutive numbers from
    [next_number], types taken from the current side. *)
Definition new_decls (entries : list (str * (str * nat))) (next_number : nat)
    (names : list str) : list (str * str * nat) :=
  map (fun '(nm, k) => (type_of entries nm, nm, k))
      (combine names (seq next_number (length names))).

(** The names [resolve_proto_conflict] appends for one block, in the
    order it writes them, and the first number it gives them. *)
Definition proto_current_only (current incoming : str) : list str :=
  py_sorted (set_minus (keys (fst (extract_oneof_entries current)))
                       (keys (fst (extract_oneof_entries incoming)))).

Definition proto_next_number (current incoming : str) : nat :=
  Nat.max (snd (extract_oneof_entries incoming)) (snd (extract_oneof_entries current)) + 1.

(** The path [p] is absent from the files [fs] or its text lacks one of
    the three markers: [has_merge_conflicts(p)] would be [False]. *)
Definition clean_at (fs : list (str * str)) (p : str) : Prop :=
  match dict_get p fs with
  | None => True
  | Some content => has_merge_conflicts content = false
  end.

(** [p1 ++ m1 ++ p2 ++ m2 ++ ...]: pieces [ms] separated by the texts [pres]. *)
Fixpoint weave (pres ms : list str) : str :=
  match pres, ms with
  | p :: ps, m :: ms' => p ++ m ++ weave ps ms'
  | _, _ => []
  end.

(** The text each strategy puts in place of one block. *)
Definition merge_section (set_iter : list str -> list str) (k : strategy)
    (current incoming : str) : str :=
  match k with
  | SchemaField => proto_merge_section set_iter current incoming
  | ImportCase => go_merge_section set_iter current incoming
  | Generic => generic_merge_section current incoming
  end.

(** A block as the pattern reads it: the markers around its four groups,
    with one-line, non-empty references. *)
Definition block_well_formed (b : conflict) : Prop :=
  full_match b = START_MARK ++ current_ref b ++ [nl] ++ current_content b ++ SEP_LINE
                 ++ incoming_content b ++ END_MARK ++ incoming_ref b
  /\ current_ref b <> [] /\ ~ In nl (current_ref b)
  /\ incoming_ref b <> [] /\ ~ In nl (incoming_ref b).

(** [b] is empty or starts with a character outside the class [f]. *)
Definition stops (f : ascii -> bool) (b : str) : Prop :=
  match b with [] => True | c :: _ => f c = false end.

(** A non-empty run of word characters. *)
Definition word (s : str) : Prop := s <> [] /\ forall c, In c s -> is_word c = true.

(** A repository with one conflicted file [a.txt], used to instantiate
    the statements about the driver: every command succeeds (or every
    command fails) and prints [UU a.txt]. *)
Definition sample_text : str :=
  START_MARK ++ L "HEAD" ++ [nl] ++ L "x" ++ SEP_LINE ++ L "y" ++ END_MARK ++ L "br".

Definition sample_world : world := {| files := [(L "a.txt", sample_text)]; commands := [] |}.

(** Every process leaves the files alone and prints [UU a.txt] (or
    fails with that message). *)
Definition sample_run (success : bool) (cwd : str) (cmd : list str) (fs : list (str * str))
    : proc_result * list (str * str) :=
  (if success then Completed (L "UU a.txt") else CalledProcessError (L "UU a.txt"), fs).

Definition no_io_failure (c : io_call) : bool := false.

Definition read_failure (c : io_call) : bool :=
  match c with Read _ => true | _ => false end.

Definition write_ok (p text : str) : option (option str) := None.

(** [write_text] raises after truncating the file. *)
Definition write_truncates (p text : str) : option (option str) := Some (Some []).

(** * Properties *)

(** ** Basic facts about the string model *)

Lemma ascii_eqb_true (a b : ascii) : ascii_eqb a b = true <-> a = b.
Proof. unfold ascii_eqb; destruct (ascii_dec a b); split; congruence. Qed.

Lemma str_eqb_true (a b : str) : str_eqb a b = true <-> a = b.
Proof. unfold str_eqb; destruct (List.list_eq_dec ascii_dec a b); split; congruence. Qed.

Lemma str_eqb_refl (a : str) : str_eqb a a = true.
Proof. apply str_eqb_true; reflexivity. Qed.

Lemma prefixb_app (p r : str) : prefixb p (p ++ r) = true.
Proof.
  induction p as [|c p IH]; simpl; [reflexivity|].
  rewrite IH, andb_true_r. apply ascii_eqb_true; reflexivity.
Qed.



Lemma contains_unfold (p s : str) :
  contains p s = prefixb p s || match s with [] => false | _ :: s' => contains p s' end.
Proof. destruct s; reflexivity. Qed.

(** A text in which [p] never occurs does not start with [p], nor does
    any of its tails. *)
Lemma contains_false_inv (p c : str) (s : str) :
  contains p (c ++ s) = false -> prefixb p s = false /\ contains p s = false.
Proof.
  induction c as [|x c IH]; simpl.
  - intros H. split; [|exact H].
    rewrite contains_unfold in H. apply orb_false_iff in H. tauto.
  - intros H. apply orb_false_iff in H.
    apply IH. destruct H as [_ H]. exact H.
Qed.

(** ** Dicts *)

Lemma dict_get_set {V} (k t : str) (v : V) (d : list (str * V)) :
  dict_get t (dict_set k v d) = if str_eqb t k then Some v else dict_get t d.
Proof.
  induction d as [|[k' v'] d IH]; simpl; [reflexivity|].
  destruct (str_eqb k k') eqn:E.
  - apply str_eqb_true in E; subst k'. simpl. destruct (str_eqb t k); reflexivity.
  - simpl. destruct (str_eqb t k') eqn:E1; rewrite ?IH.
    + apply str_eqb_true in E1; subst t.
      destruct (str_eqb k' k) eqn:E2; [|reflexivity].
      apply str_eqb_true in E2; subst. rewrite str_eqb_refl in E; discriminate.
    + reflexivity.
Qed.

Lemma keys_dict_set {V} (k : str) (v : V) (d : list (str * V)) (x : str) :
  In x (keys (dict_set k v d)) <-> x = k \/ In x (keys d).
Proof.
  induction d as [|[k' v'] d IH]; simpl; [intuition congruence|].
  destruct (str_eqb k k') eqn:E; simpl.
  - apply str_eqb_true in E; subst; intuition congruence.
  - rewrite IH; intuition congruence.
Qed.

Lemma keys_dict_set_NoDup {V} (k : str) (v : V) (d : list (str * V)) :
  List.NoDup (keys d) -> List.NoDup (keys (dict_set k v d)).
Proof.
  induction d as [|[k' v'] d IH]; simpl; intros H.
  - constructor; [intros []|constructor].
  - inversion H as [|? ? Hn Hd]; subst.
    destruct (str_eqb k k') eqn:E; simpl; constructor; auto.
    rewrite keys_dict_set. intros [-> | Hin]; [|tauto].
    rewrite str_eqb_refl in E; discriminate.
Qed.

Lemma dict_get_In_keys {V} (k : str) (d : list (str * V)) :
  In k (keys d) -> exists v, dict_get k d = Some v.
Proof.
  induction d as [|[k' v'] d IH]; simpl; [tauto|].
  intros Hin. destruct (str_eqb k k') eqn:E; [eauto|].
  destruct Hin as [->|Hin]; [rewrite str_eqb_refl in E; discriminate|auto].
Qed.

Lemma mem_In (k : str) (l : list str) : mem k l = true <-> In k l.
Proof.
  unfold mem. rewrite existsb_exists. split.
  - intros [x [Hx Hk]]. apply str_eqb_true in Hk; subst; exact Hx.
  - intros Hx. exists k. split; [exact Hx|apply str_eqb_refl].
Qed.

Lemma In_set_minus (a b : list str) (x : str) :
  In x (set_minus a b) <-> In x a /\ ~ In x b.
Proof.
  unfold set_minus. rewrite List.filter_In, negb_true_iff.
  split; intros [H1 H2]; split; auto.
  - intros Hb. apply mem_In in Hb. congruence.
  - destruct (mem x b) eqn:E; [|reflexivity]. apply mem_In in E; tauto.
Qed.

(** ** The order of [sorted] *)

Lemma code_inj (x y : ascii) : code x = code y -> x = y.
Proof.
  unfold code. intros H.
  rewrite <- (ascii_nat_embedding x), <- (ascii_nat_embedding y), H. reflexivity.
Qed.

Ltac code_cases x y :=
  destruct (Nat.ltb_spec (code x) (code y)); [|destruct (Nat.eqb_spec (code x) (code y))].

Lemma str_leb_total (a b : str) : str_leb a b = true \/ str_leb b a = true.
Proof.
  revert b. induction a as [|x a IH]; intros [|y b]; simpl; auto.
  code_cases x y; auto.
  - rewrite e, Nat.ltb_irrefl, Nat.eqb_refl. apply IH.
  - right. destruct (Nat.ltb_spec (code y) (code x)); [reflexivity|lia].
Qed.

Lemma str_leb_cons (x y : ascii) (a b : str) :
  str_leb (x :: a) (y :: b) = true <->
  code x < code y \/ (code x = code y /\ str_leb a b = true).
Proof.
  simpl. code_cases x y; split; intros Hc; try discriminate; auto; try lia;
    destruct Hc as [Hc|[Hc Hc']]; try lia; auto.
Qed.

Lemma str_leb_trans (a b c : str) :
  str_leb a b = true -> str_leb b c = true -> str_leb a c = true.
Proof.
  revert b c. induction a as [|x a IH]; intros [|y b] [|z c]; auto; try discriminate.
  rewrite !str_leb_cons. intros H1 H2.
  destruct H1 as [H1|[H1 H1']], H2 as [H2|[H2 H2']]; try (left; lia).
  right. split; [lia|eauto].
Qed.

Lemma str_leb_antisym (a b : str) :
  str_leb a b = true -> str_leb b a = true -> a = b.
Proof.
  revert b. induction a as [|x a IH]; intros [|y b]; simpl; auto; try discriminate.
  code_cases x y; code_cases y x; intros H1 H2; try discriminate; try lia.
  f_equal; [apply code_inj; exact e|auto].
Qed.

#[global] Instance str_le_total : Total str_le.
Proof. intros a b. apply str_leb_total. Qed.

#[global] Instance str_le_trans : Transitive str_le.
Proof. intros a b c. apply str_leb_trans. Qed.

#[global] Instance str_le_antisym : AntiSymm (=) str_le.
Proof. intros a b. apply str_leb_antisym. Qed.

Lemma py_sorted_perm (xs : list str) : Permutation (py_sorted xs) xs.
Proof. apply merge_sort_Permutation. Qed.

Lemma py_sorted_strict (xs : list str) :
  List.NoDup xs -> StronglySorted str_lt (py_sorted xs).
Proof.
  intros Hnd.
  assert (Hs : StronglySorted str_le (py_sorted xs)).
  { unfold py_sorted. apply (StronglySorted_merge_sort str_le). }
  assert (Hn : List.NoDup (py_sorted xs)).
  { apply (Permutation_NoDup (Permutation_sym (py_sorted_perm xs))), Hnd. }
  clear Hnd. induction Hs as [|x l Hs IH Hf]; constructor.
  - apply IH. inversion Hn; assumption.
  - inversion Hn as [|? ? Hx _]; subst.
    apply Forall_forall. intros y Hy. split.
    + exact (proj1 (Forall_forall _ _) Hf y Hy).
    + intros ->. apply Hx. apply list_elem_of_In. exact Hy.
Qed.

(** Sorting a permutation of a list gives the same list. *)
Lemma py_sorted_perm_eq (xs ys : list str) :
  Permutation xs ys -> py_sorted xs = py_sorted ys.
Proof.
  intros Hp. unfold py_sorted. apply (Sorted_unique str_le).
  - apply (Sorted_merge_sort str_le).
  - apply (Sorted_merge_sort str_le).
  - rewrite (merge_sort_Permutation str_le xs), (merge_sort_Permutation str_le ys).
    exact Hp.
Qed.

(** ** The conflict parser *)

Lemma prefixb_split (p t : str) : prefixb p t = true -> t = p ++ drop (length p) t.
Proof.
  revert t. induction p as [|c p IH]; intros [|d t]; simpl; auto; try discriminate.
  intros H. apply andb_true_iff in H as [H1 H2]. apply ascii_eqb_true in H1; subst.
  f_equal. auto.
Qed.

Lemma span_split (f : ascii -> bool) (s a b : str) : span f s = (a, b) -> s = a ++ b.
Proof.
  revert a b. induction s as [|c s IH]; intros a b; simpl.
  - intros H; simplify_eq. reflexivity.
  - destruct (f c); [|intros H; simplify_eq; reflexivity].
    destruct (span f s) as [a' b'] eqn:E. intros H; simplify_eq. simpl. f_equal. auto.
Qed.

Lemma find_incoming_eq (t : str) :
  find_incoming t =
  match (if prefixb END_MARK t then
           let '(g4, rest) := span (fun c => negb (ascii_eqb c nl)) (drop 9 t) in
           match g4 with [] => None | _ => Some ([], g4, rest) end
         else None) with
  | Some r => Some r
  | None =>
      match t with
      | [] => None
      | c :: t' =>
          match find_incoming t' with
          | Some (g3, g4, rest) => Some (c :: g3, g4, rest)
          | None => None
          end
      end
  end.
Proof. destruct t; reflexivity. Qed.

Lemma find_separator_eq (t : str) :
  find_separator t =
  match (if prefixb SEP_LINE t then find_incoming (drop 9 t) else None) with
  | Some (g3, g4, rest) => Some ([], g3, g4, rest)
  | None =>
      match t with
      | [] => None
      | c :: t' =>
          match find_separator t' with
          | Some (g2, g3, g4, rest) => Some (c :: g2, g3, g4, rest)
          | None => None
          end
      end
  end.
Proof. destruct t; reflexivity. Qed.

Lemma find_incoming_split (t g3 g4 rest : str) :
  find_incoming t = Some (g3, g4, rest) -> t = g3 ++ END_MARK ++ g4 ++ rest.
Proof.
  revert g3 g4 rest. induction t as [|c t IH]; intros g3 g4 rest H;
    rewrite find_incoming_eq in H.
  - discriminate.
  - destruct (prefixb END_MARK (c :: t)) eqn:E.
    + destruct (span _ (drop 9 (c :: t))) as [g r] eqn:Es.
      destruct g as [|x g].
      * destruct (find_incoming t) as [[[a b] d]|] eqn:Ef; simplify_eq.
        rewrite (IH _ _ _ eq_refl) at 1. reflexivity.
      * simplify_eq. apply span_split in Es. rewrite (prefixb_split _ _ E) at 1.
        change (length END_MARK) with 9. rewrite Es. reflexivity.
    + destruct (find_incoming t) as [[[a b] d]|] eqn:Ef; simplify_eq.
      rewrite (IH _ _ _ eq_refl) at 1. reflexivity.
Qed.

Lemma find_separator_split (t g2 g3 g4 rest : str) :
  find_separator t = Some (g2, g3, g4, rest) ->
  t = g2 ++ SEP_LINE ++ g3 ++ END_MARK ++ g4 ++ rest.
Proof.
  revert g2 g3 g4 rest. induction t as [|c t IH]; intros g2 g3 g4 rest H;
    rewrite find_separator_eq in H.
  - discriminate.
  - destruct (prefixb SEP_LINE (c :: t)) eqn:E.
    + destruct (find_incoming (drop 9 (c :: t))) as [[[a b] d]|] eqn:Ef.
      * simplify_eq. apply find_incoming_split in Ef.
        rewrite (prefixb_split _ _ E) at 1. change (length SEP_LINE) with 9.
        rewrite Ef. reflexivity.
      * destruct (find_separator t) as [[[[a b] d] e]|] eqn:Eg; simplify_eq.
        rewrite (IH _ _ _ _ eq_refl) at 1. reflexivity.
    + destruct (find_separator t) as [[[[a b] d] e]|] eqn:Eg; simplify_eq.
      rewrite (IH _ _ _ _ eq_refl) at 1. reflexivity.
Qed.

Lemma span_stop (f : ascii -> bool) (s a b : str) (c : ascii) :
  span f s = (a, c :: b) -> f c = false.
Proof.
  revert a. induction s as [|d s IH]; intros a; simpl; [intros H; discriminate|].
  destruct (f d) eqn:Ed.
  - destruct (span f s) as [a' b'] eqn:E. intros H; simplify_eq. eauto.
  - intros H; simplify_eq. exact Ed.
Qed.

Lemma conflict_match_at_split (s rest : str) (b : conflict) :
  conflict_match_at s = Some (b, rest) ->
  s = full_match b ++ rest /\
  full_match b = START_MARK ++ current_ref b ++ [nl] ++ current_content b ++ SEP_LINE
                 ++ incoming_content b ++ END_MARK ++ incoming_ref b.
Proof.
  unfold conflict_match_at. intros H.
  destruct (prefixb START_MARK s) eqn:E; [|discriminate].
  destruct (span _ (drop 8 s)) as [g1 r0] eqn:Es.
  destruct r0 as [|c r]; [discriminate|].
  destruct g1 as [|x g1]; [discriminate|].
  destruct (find_separator r) as [[[[g2 g3] g4] rest']|] eqn:Ef; [|discriminate].
  simplify_eq. simpl. split; [|reflexivity].
  pose proof (span_stop _ _ _ _ _ Es) as Hc. simpl in Hc.
  apply negb_false_iff, ascii_eqb_true in Hc. subst c.
  apply span_split in Es. apply find_separator_split in Ef.
  rewrite (prefixb_split _ _ E) at 1. change (length START_MARK) with 8.
  rewrite Es, Ef. unfold START_MARK, SEP_LINE, END_MARK, L. simpl.
  repeat (simpl; rewrite <- app_assoc). reflexivity.
Qed.

Lemma count_nl_app (a b : str) : count_nl (a ++ b) = count_nl a + count_nl b.
Proof. induction a as [|c a IH]; simpl; [reflexivity|]. rewrite IH. lia. Qed.

Lemma count_nl_free (a : str) : ~ In nl a -> count_nl a = 0.
Proof.
  induction a as [|c a IH]; simpl; [reflexivity|]. intros H.
  destruct (ascii_eqb c nl) eqn:E.
  - apply ascii_eqb_true in E. subst. exfalso. apply H. left. reflexivity.
  - simpl. apply IH. tauto.
Qed.

(** A match spans at least four line breaks. *)
Lemma conflict_match_at_newlines (s rest : str) (b : conflict) :
  conflict_match_at s = Some (b, rest) -> 4 <= count_nl s.
Proof.
  intros H. apply conflict_match_at_split in H as [-> Hf]. rewrite Hf.
  rewrite !count_nl_app. simpl. lia.
Qed.

Lemma scan_conflicts_no_start (f : nat) (s : str) :
  contains START_MARK s = false -> scan_conflicts f s = [].
Proof.
  revert s. induction f as [|f IH]; intros s H; simpl; [reflexivity|].
  destruct s as [|c s]; [reflexivity|].
  assert (Hm : conflict_match_at (c :: s) = None).
  { unfold conflict_match_at.
    destruct (contains_false_inv START_MARK [] (c :: s) H) as [-> _]. reflexivity. }
  rewrite Hm. apply IH.
  exact (proj2 (contains_false_inv START_MARK [c] s H)).
Qed.

Lemma scan_conflicts_few_newlines (f : nat) (s : str) :
  count_nl s <= 3 -> scan_conflicts f s = [].
Proof.
  revert s. induction f as [|f IH]; intros s H; simpl; [reflexivity|].
  destruct s as [|c s]; [reflexivity|].
  destruct (conflict_match_at (c :: s)) as [[b rest]|] eqn:Hm.
  - apply conflict_match_at_newlines in Hm. lia.
  - apply IH. simpl in H. lia.
Qed.

(** With no block found, every strategy leaves the text as it is. *)
Lemma strategies_no_block (it : list str -> list str) (content : str) :
  parse_conflict_sections content = [] ->
  resolve_proto_conflict it content = content /\
  resolve_go_conflict it content = content /\
  resolve_generic_conflict content = content.
Proof.
  intros H. unfold resolve_proto_conflict, resolve_go_conflict, resolve_generic_conflict.
  rewrite H. auto.
Qed.

(** ** Stripping *)

Lemma drop_while_nil (f : ascii -> bool) (l : str) :
  drop_while f l = [] <-> (forall c, In c l -> f c = true).
Proof.
  induction l as [|c l IH]; simpl; [split; [intros _ c []|reflexivity]|].
  destruct (f c) eqn:E; split.
  - intros H d [->|Hd]; [exact E|]. apply IH; assumption.
  - intros H. apply IH. intros d Hd. apply H. right. exact Hd.
  - discriminate.
  - intros H. rewrite H in E; [discriminate|left; reflexivity].
Qed.

Lemma drop_while_head (f : ascii -> bool) (l r : str) (d : ascii) :
  drop_while f l = d :: r -> f d = false.
Proof.
  induction l as [|c l IH]; simpl; [discriminate|].
  destruct (f c) eqn:E; [exact IH|]. intros H; simplify_eq. exact E.
Qed.

(** [s.strip()] is empty exactly when every character of [s] is blank. *)
Lemma strip_nil (s : str) :
  is_nil (strip s) = true <-> (forall c, In c s -> is_space c = true).
Proof.
  unfold strip, lstrip, rstrip.
  assert (Hn : forall l : str, is_nil l = true <-> l = []) by (intros [|]; simpl; split; congruence).
  rewrite Hn, drop_while_nil. split.
  - intros H. destruct (drop_while is_space (rev s)) as [|d r] eqn:E.
    + intros c Hc. apply (drop_while_nil is_space (rev s)); [exact E|].
      apply in_rev. rewrite rev_involutive. exact Hc.
    + apply drop_while_head in E. rewrite H in E; [discriminate|].
      simpl. apply in_or_app. right. left. reflexivity.
  - intros H. assert (E : drop_while is_space (rev s) = []).
    { apply drop_while_nil. intros c Hc. apply H. apply in_rev. exact Hc. }
    rewrite E. simpl. intros c [].
Qed.

(** ** The import/case strategy's extraction *)

Lemma case_text_split (t body : str) : case_text t body = case_text t [] ++ body.
Proof. unfold case_text. rewrite <- !app_assoc. reflexivity. Qed.

Lemma switch_cases_text (content t v : str) :
  dict_get t (extract_switch_cases content) = Some v -> exists body, v = case_text t body.
Proof.
  unfold extract_switch_cases.
  generalize (scan_cases (length content) content) as l.
  assert (Hinv : forall l (d : list (str * str)),
            (forall t v, dict_get t d = Some v -> exists body, v = case_text t body) ->
            forall t v, dict_get t (fold_left (fun cases '(g1, g2) =>
                          dict_set (strip g1) (case_text (strip g1) (strip g2)) cases) l d)
                        = Some v -> exists body, v = case_text t body).
  { induction l as [|[g1 g2] l IH]; simpl; intros d Hd; [exact Hd|].
    apply IH. intros t' v'. rewrite dict_get_set.
    destruct (str_eqb t' (strip g1)) eqn:E; [|apply Hd].
    apply str_eqb_true in E. subst. intros H; simplify_eq. eauto. }
  intros l. apply Hinv. simpl. discriminate.
Qed.

Lemma flat_map_ext_In {A B} (f g : A -> list B) (l : list A) :
  (forall x, In x l -> f x = g x) -> List.flat_map f l = List.flat_map g l.
Proof.
  induction l as [|x l IH]; simpl; intros H; [reflexivity|].
  rewrite (H x (or_introl eq_refl)), IH; [reflexivity|]. intros y Hy. apply H. right. exact Hy.
Qed.

(** ** File classification *)


(** * The specification's claims *)

(** ** Buffers without markers *)

(** C5: on a buffer in which the current-side marker [<<<<<<< ] does not
    occur (so in particular a buffer with no conflict marker at all), the
    parser finds no block, the three strategies return the buffer unchanged
    and the file is counted as fully resolved with its text unchanged. *)
Theorem marker_free_buffer_unchanged (it : list str -> list str) (file_name content : str) :
  contains START_MARK content = false ->
  parse_conflict_sections content = [] /\
  resolve_proto_conflict it content = content /\
  resolve_go_conflict it content = content /\
  resolve_generic_conflict content = content /\
  resolve_file it file_name content = {| fully_resolved := true; merged_text := content |}.
Proof.
  intros H.
  assert (Hp : parse_conflict_sections content = []) by apply scan_conflicts_no_start, H.
  destruct (strategies_no_block it content Hp) as (H1 & H2 & H3).
  repeat split; auto.
  unfold resolve_file, has_merge_conflicts. rewrite H. reflexivity.
Qed.

Lemma marker_free_buffer_unchanged_witness :
  contains START_MARK (J["package main"; "x := 1"]) = false /\
  (parse_conflict_sections (J["package main"; "x := 1"]) = [] /\
   resolve_proto_conflict insertion_order (J["package main"; "x := 1"]) = J["package main"; "x := 1"] /\
   resolve_go_conflict insertion_order (J["package main"; "x := 1"]) = J["package main"; "x := 1"] /\
   resolve_generic_conflict (J["package main"; "x := 1"]) = J["package main"; "x := 1"] /\
   resolve_file insertion_order (L "main.go") (J["package main"; "x := 1"])
   = {| fully_resolved := true; merged_text := J["package main"; "x := 1"] |}).
Proof.
  split; [vm_compute; reflexivity|].
  apply marker_free_buffer_unchanged. vm_compute. reflexivity.
Defined.

(** ** The generic strategy *)

(** C6 (as amended): the generic strategy's text for a block is the
    incoming text, a newline and the current text when the current text
    holds a non-blank character and differs from the incoming text, and
    exactly the incoming text otherwise (a current side made only of
    blanks counts as empty); for two identical sides [A] the result is [A]. *)
Theorem generic_merge_section_spec (current incoming : str) :
  ((exists c, In c current /\ is_space c = false) /\ current <> incoming ->
   generic_merge_section current incoming = incoming ++ [nl] ++ current) /\
  ((forall c, In c current -> is_space c = true) \/ current = incoming ->
   generic_merge_section current incoming = incoming) /\
  resolve_generic_conflict (J["<<<<<<< HEAD"; "A"; "======="; "A"; ">>>>>>> feature"]) = L "A".
Proof.
  unfold generic_merge_section. split; [|split].
  - intros [[c [Hc Hs]] Hne].
    destruct (is_nil (strip current)) eqn:E.
    + apply strip_nil with (c := c) in E; [congruence|exact Hc].
    + destruct (str_eqb current incoming) eqn:E2; [apply str_eqb_true in E2; congruence|].
      reflexivity.
  - intros [Hb | ->].
    + apply strip_nil in Hb. rewrite Hb. reflexivity.
    + rewrite str_eqb_refl, andb_false_r. reflexivity.
  - vm_compute. reflexivity.
Qed.

(** C6 fails as stated: a current side made of two blanks is non-empty
    and differs from the incoming side [A], yet the result is [A] alone. *)
Lemma generic_blank_current_dropped :
  map current_content (parse_conflict_sections (J["<<<<<<< HEAD"; "  "; "======="; "A"; ">>>>>>> feature"]))
  = [L "  "] /\
  resolve_generic_conflict (J["<<<<<<< HEAD"; "  "; "======="; "A"; ">>>>>>> feature"]) = L "A" /\
  L "A" <> L "A" ++ [nl] ++ L "  ".
Proof. split; [vm_compute; reflexivity|split; [vm_compute; reflexivity|discriminate]]. Qed.

(** ** File classification *)

(** C4 (as amended): a file is counted as fully resolved exactly when it
    lacks one of the three marker tokens to begin with, or when the text
    produced by its strategy no longer contains the current-side marker
    [<<<<<<< ]; the separator and the incoming-side marker are not looked
    for in that text. *)
Theorem file_resolved_iff_no_start_marker (it : list str -> list str) (file_name content : str) :
  fully_resolved (resolve_file it file_name content) = true <->
  has_merge_conflicts content = false \/
  contains START_MARK (apply_strategy it (strategy_of file_name) content) = false.
Proof.
  unfold resolve_file. destruct (has_merge_conflicts content); simpl.
  - destruct (contains START_MARK _); simpl; split; intros H; auto.
    + destruct H as [H|H]; discriminate.
  - split; auto.
Qed.

(** C4 fails as stated: a separator line left in the result does not stop
    the file from being counted as fully resolved. *)
Lemma separator_left_but_resolved :
  resolve_file insertion_order (L "notes.txt")
    (J["<<<<<<< HEAD"; "A"; "======="; "B"; "======="; "C"; ">>>>>>> feature"])
  = {| fully_resolved := true; merged_text := J["B"; "======="; "C"; "A"] |} /\
  contains (L "=======") (J["B"; "======="; "C"; "A"]) = true.
Proof. split; vm_compute; reflexivity. Qed.

(** ** Regions with an empty side *)




(** ** The qualifier of re-emitted cases *)

(** C10: every case the import/case strategy extracts is stored as
    [case *spb.<tag>:], a newline and its body, whatever qualifier the
    source text used; the merged text of a block is the incoming text
    followed, for each current-only tag in sorted order, by a newline, a
    tab and that [spb]-qualified case. *)
Theorem go_cases_requalified :
  (forall content t v, dict_get t (extract_switch_cases content) = Some v ->
     exists body, v = L "case *spb." ++ t ++ L ":" ++ [nl] ++ body) /\
  (forall current incoming,
     go_merge_section insertion_order current incoming =
     incoming ++ List.flat_map
       (fun t => [nl; tab] ++ L "case *spb." ++ t ++ L ":" ++ [nl] ++ case_body current t)
       (py_sorted (set_minus (keys (extract_switch_cases current))
                             (keys (extract_switch_cases incoming))))) /\
  go_merge_section insertion_order (J["case *pb.Foo:"; "return 1"]) (L "x")
  = L "x" ++ [nl; tab] ++ J["case *spb.Foo:"; "return 1"].
Proof.
  split; [|split].
  - intros content t v H. apply switch_cases_text in H. exact H.
  - intros current incoming. unfold go_merge_section, insertion_order. f_equal.
    apply flat_map_ext_In. intros t Ht. f_equal.
    apply (Permutation_in _ (py_sorted_perm _)), In_set_minus in Ht as [Ht _].
    apply dict_get_In_keys in Ht as [v Hv].
    unfold case_body. rewrite Hv.
    destruct (switch_cases_text _ _ _ Hv) as [body ->].
    rewrite case_text_split, drop_app_length. unfold case_text.
    rewrite <- !app_assoc. reflexivity.
  - vm_compute. reflexivity.
Qed.

(** ** Lines of a text *)

Lemma ascii_eqb_refl (c : ascii) : ascii_eqb c c = true.
Proof. apply ascii_eqb_true. reflexivity. Qed.

Lemma split_nl_cons (s : str) : exists l ls, split_nl s = l :: ls.
Proof.
  induction s as [|c s IH]; simpl; [eauto|].
  destruct (ascii_eqb c nl); [eauto|]. destruct IH as (l & ls & ->). eauto.
Qed.

Lemma split_nl_app_nl (a b : str) : split_nl (a ++ nl :: b) = split_nl a ++ split_nl b.
Proof.
  induction a as [|c a IH]; simpl; [try rewrite ascii_eqb_refl; reflexivity|].
  destruct (ascii_eqb c nl); rewrite IH; [reflexivity|].
  destruct (split_nl_cons a) as (l & ls & ->). reflexivity.
Qed.

Lemma split_nl_snoc (s : str) (c : ascii) :
  ascii_eqb c nl = false -> split_nl (s ++ [c]) = app_last (split_nl s) [c].
Proof.
  intros Hc. induction s as [|d s IH]; simpl.
  - rewrite Hc. reflexivity.
  - destruct (split_nl_cons s) as (l & ls & E).
    destruct (ascii_eqb d nl); rewrite IH, E.
    + reflexivity.
    + destruct ls; reflexivity.
Qed.

Lemma split_nl_free (s : str) : ~ In nl s -> split_nl s = [s].
Proof.
  induction s as [|c s IH]; simpl; [reflexivity|]. intros H.
  destruct (ascii_eqb c nl) eqn:E.
  - apply ascii_eqb_true in E. subst. exfalso. apply H. left. reflexivity.
  - rewrite IH; [reflexivity|]. tauto.
Qed.

Lemma flat_map_app_last {B} (f : str -> list B) (ls : list str) (w : str) :
  (forall l, f (l ++ w) = f l) -> List.flat_map f (app_last ls w) = List.flat_map f ls.
Proof.
  intros Hf. induction ls as [|l ls IH]; [reflexivity|].
  destruct ls as [|l' ls]; simpl.
  - rewrite Hf. reflexivity.
  - simpl in IH. rewrite IH. reflexivity.
Qed.

Lemma field_decls_app_nl (a b : str) :
  field_decls (a ++ [nl] ++ b) = field_decls a ++ field_decls b.
Proof. unfold field_decls. simpl. rewrite split_nl_app_nl, List.flat_map_app. reflexivity. Qed.

Lemma strip_snoc_space (l : str) (c : ascii) :
  is_space c = true -> strip (l ++ [c]) = strip l.
Proof. intros Hc. unfold strip, rstrip. rewrite rev_unit. simpl. rewrite Hc. reflexivity. Qed.

Lemma field_decls_snoc_space (s : str) (c : ascii) :
  is_space c = true -> field_decls (s ++ [c]) = field_decls s.
Proof.
  intros Hc. destruct (ascii_eqb c nl) eqn:E.
  - apply ascii_eqb_true in E. subst.
    change (s ++ [nl]) with (s ++ [nl] ++ []). rewrite field_decls_app_nl.
    apply app_nil_r.
  - unfold field_decls. rewrite split_nl_snoc by exact E.
    apply flat_map_app_last. intros l. unfold line_decl. rewrite strip_snoc_space by exact Hc.
    reflexivity.
Qed.

Lemma field_decls_app_spaces (s w : str) :
  (forall c, In c w -> is_space c = true) -> field_decls (s ++ w) = field_decls s.
Proof.
  revert s. induction w as [|c w IH]; intros s Hw; [rewrite app_nil_r; reflexivity|].
  replace (s ++ c :: w) with ((s ++ [c]) ++ w) by (rewrite <- app_assoc; reflexivity).
  rewrite IH by (intros d Hd; apply Hw; right; exact Hd).
  apply field_decls_snoc_space, Hw. left. reflexivity.
Qed.

Lemma drop_while_split (f : ascii -> bool) (l : str) :
  exists p, (forall c, In c p -> f c = true) /\ l = p ++ drop_while f l.
Proof.
  induction l as [|c l IH]; simpl; [exists []; split; [intros _ []|reflexivity]|].
  destruct (f c) eqn:E.
  - destruct IH as (p & Hp & Hl). exists (c :: p). split.
    + intros d [->|Hd]; auto.
    + simpl. f_equal. exact Hl.
  - exists []. split; [intros _ []|reflexivity].
Qed.

Lemma rstrip_split (s : str) :
  exists w, (forall c, In c w -> is_space c = true) /\ s = rstrip s ++ w.
Proof.
  destruct (drop_while_split is_space (rev s)) as (p & Hp & E).
  exists (rev p). split.
  - intros c Hc. apply Hp. apply in_rev. exact Hc.
  - unfold rstrip. rewrite <- rev_app_distr, <- E, rev_involutive. reflexivity.
Qed.

(** Trimming the trailing blanks of a side keeps its declarations. *)
Lemma field_decls_rstrip (s : str) : field_decls (rstrip s) = field_decls s.
Proof.
  destruct (rstrip_split s) as (w & Hw & E).
  rewrite E at 2. symmetry. apply field_decls_app_spaces, Hw.
Qed.

(** ** Character classes *)

Ltac ascii_cases c := destruct c as [[] [] [] [] [] [] [] []].

Lemma word_not_space (c : ascii) : is_word c = true -> is_space c = false.
Proof. ascii_cases c; vm_compute; intros H; first [reflexivity | discriminate H]. Qed.

Lemma digit_not_space (c : ascii) : is_digit c = true -> is_space c = false.
Proof. ascii_cases c; vm_compute; intros H; first [reflexivity | discriminate H]. Qed.

Lemma word_not_nl (c : ascii) : is_word c = true -> c <> nl.
Proof. intros H ->. discriminate H. Qed.

Lemma digit_not_nl (c : ascii) : is_digit c = true -> c <> nl.
Proof. intros H ->. discriminate H. Qed.

Lemma word_not_comment (c : ascii) (r : str) :
  is_word c = true -> prefixb (L "//") (c :: r) = false.
Proof. ascii_cases c; vm_compute; intros H; first [reflexivity | discriminate H]. Qed.

(** ** [f"{n}"] and [int()] *)

Lemma digit_char_spec (d : nat) :
  d < 10 -> is_digit (digit_char d) = true /\ code (digit_char d) - 48 = d.
Proof.
  intros Hd. assert (E : code (digit_char d) = 48 + d)
    by (unfold code, digit_char; apply nat_ascii_embedding; lia).
  unfold is_digit, in_range. rewrite E. split; [|lia].
  apply andb_true_iff. split; apply Nat.leb_le; lia.
Qed.

Lemma show_nat_aux_digits (f n : nat) (acc : str) :
  (forall c, In c acc -> is_digit c = true) ->
  forall c, In c (show_nat_aux f n acc) -> is_digit c = true.
Proof.
  revert n acc. induction f as [|f IH]; intros n acc Hacc; simpl; [exact Hacc|].
  assert (Hacc' : forall c, In c (digit_char (n mod 10) :: acc) -> is_digit c = true).
  { intros c [<-|Hc]; [|auto]. apply digit_char_spec, Nat.mod_upper_bound. lia. }
  destruct (n <? 10); [exact Hacc'|]. apply IH, Hacc'.
Qed.

Lemma show_nat_aux_nil (f n : nat) (acc : str) : show_nat_aux f n acc = [] -> acc = [].
Proof.
  revert n acc. induction f as [|f IH]; intros n acc; simpl; [auto|].
  destruct (n <? 10); [discriminate|]. intros H. apply IH in H. discriminate.
Qed.

Lemma show_nat_aux_value (f n : nat) (acc : str) :
  n < f -> fold_left digit_step (show_nat_aux f n acc) 0 = fold_left digit_step acc n.
Proof.
  revert n acc. induction f as [|f IH]; intros n acc Hn; [lia|]. cbn [show_nat_aux].
  destruct (digit_char_spec (n mod 10)) as [_ Hd]; [apply Nat.mod_upper_bound; lia|].
  pose proof (Nat.div_mod_eq n 10) as Hdm.
  destruct (n <? 10) eqn:E.
  - apply Nat.ltb_lt in E. cbn [fold_left]. f_equal. unfold digit_step. rewrite Hd.
    rewrite Nat.mod_small by exact E. lia.
  - apply Nat.ltb_ge in E. rewrite IH.
    + cbn [fold_left]. f_equal. unfold digit_step. rewrite Hd. lia.
    + assert (n / 10 < n) by (apply Nat.div_lt; lia). lia.
Qed.

Lemma int_of_show_nat (n : nat) : int_of_digits (show_nat n) = n.
Proof. unfold int_of_digits, show_nat. rewrite show_nat_aux_value by lia. reflexivity. Qed.

Lemma show_nat_digits (n : nat) : forall c, In c (show_nat n) -> is_digit c = true.
Proof. apply show_nat_aux_digits. intros _ []. Qed.

Lemma show_nat_not_nil (n : nat) : show_nat n <> [].
Proof.
  unfold show_nat. simpl. destruct (n <? 10); [discriminate|].
  intros H. apply show_nat_aux_nil in H. discriminate.
Qed.

(** ** Matching a generated declaration *)

Lemma span_app_stops (f : ascii -> bool) (a b : str) :
  (forall c, In c a -> f c = true) -> stops f b -> span f (a ++ b) = (a, b).
Proof.
  induction a as [|c a IH]; intros Ha Hb; simpl.
  - destruct b as [|d b]; simpl in *; [reflexivity|]. rewrite Hb. reflexivity.
  - rewrite (Ha c (or_introl eq_refl)), IH; [reflexivity| |exact Hb].
    intros d Hd. apply Ha. right. exact Hd.
Qed.

Lemma span_cons_stops (f : ascii -> bool) (c : ascii) (b : str) :
  f c = true -> stops f b -> span f (c :: b) = ([c], b).
Proof. intros Hc Hb. apply (span_app_stops f [c] b); [|exact Hb]. intros d [<-|[]]. exact Hc. Qed.

Lemma drop_while_app_stops (f : ascii -> bool) (a b : str) :
  (forall c, In c a -> f c = true) -> stops f b -> drop_while f (a ++ b) = b.
Proof.
  induction a as [|c a IH]; intros Ha Hb; simpl.
  - destruct b as [|d b]; simpl in *; [reflexivity|]. rewrite Hb. reflexivity.
  - rewrite (Ha c (or_introl eq_refl)). apply IH; [|exact Hb].
    intros d Hd. apply Ha. right. exact Hd.
Qed.

Lemma stops_word_space (c : ascii) (r : str) : is_word c = true -> stops is_space (c :: r).
Proof. intros H. simpl. apply word_not_space, H. Qed.

Lemma field_match_generated (ty nm ds : str) :
  word ty -> word nm -> ds <> [] -> (forall c, In c ds -> is_digit c = true) ->
  field_match (ty ++ " "%char :: nm ++ " "%char :: "="%char :: " "%char :: ds ++ [";"%char])
  = Some (ty, nm, ds).
Proof.
  intros [Hty0 Hty] [Hnm0 Hnm] Hds0 Hds.
  destruct ty as [|t ty']; [congruence|]. destruct nm as [|m nm']; [congruence|].
  destruct ds as [|d ds']; [congruence|].
  unfold field_match.
  rewrite span_app_stops by (exact Hty || reflexivity). cbv beta iota.
  rewrite span_cons_stops by (reflexivity || apply stops_word_space, Hnm; left; reflexivity).
  cbv beta iota.
  rewrite span_app_stops by (exact Hnm || reflexivity). cbv beta iota.
  rewrite span_cons_stops by reflexivity. cbv beta iota.
  rewrite ascii_eqb_refl.
  cbn [drop_while]. change (is_space " "%char) with true. cbv iota.
  replace (drop_while is_space ((d :: ds') ++ [";"%char])) with ((d :: ds') ++ [";"%char])
    by (simpl; rewrite digit_not_space by (apply Hds; left; reflexivity); reflexivity).
  rewrite span_app_stops by (exact Hds || reflexivity). cbv beta iota.
  rewrite ascii_eqb_refl. reflexivity.
Qed.

Lemma rstrip_snoc (l : str) (c : ascii) : is_space c = false -> rstrip (l ++ [c]) = l ++ [c].
Proof. intros Hc. unfold rstrip. rewrite rev_unit. simpl. rewrite Hc. simpl. rewrite rev_involutive. reflexivity. Qed.

(** A line written by [resolve_proto_conflict] is read back as the
    declaration it was made from. *)
Lemma line_decl_generated (ty nm : str) (n : nat) :
  word ty -> word nm ->
  line_decl (L "    " ++ ty ++ L " " ++ nm ++ L " = " ++ show_nat n ++ L ";") = [(ty, nm, n)].
Proof.
  intros Hty Hnm.
  set (body := ty ++ " "%char :: nm ++ " "%char :: "="%char :: " "%char :: show_nat n ++ [";"%char]).
  change (L "    " ++ ty ++ L " " ++ nm ++ L " = " ++ show_nat n ++ L ";")
    with ([" "%char; " "%char; " "%char; " "%char] ++ body).
  assert (Hs : strip ([" "%char; " "%char; " "%char; " "%char] ++ body) = body).
  { unfold strip, lstrip.
    replace ([" "%char; " "%char; " "%char; " "%char] ++ body)
      with (([" "%char; " "%char; " "%char; " "%char] ++ ty ++ " "%char :: nm ++ " "%char
              :: "="%char :: " "%char :: show_nat n) ++ [";"%char])
      by (unfold body; repeat (simpl; rewrite <- app_assoc); reflexivity).
    rewrite rstrip_snoc by reflexivity.
    replace (([" "%char; " "%char; " "%char; " "%char] ++ ty ++ " "%char :: nm ++ " "%char
              :: "="%char :: " "%char :: show_nat n) ++ [";"%char])
      with ([" "%char; " "%char; " "%char; " "%char] ++ body)
      by (unfold body; repeat (simpl; rewrite <- app_assoc); reflexivity).
    apply drop_while_app_stops; [intros c Hc; simpl in Hc; intuition subst; reflexivity|].
    destruct Hty as [Hty0 Hty]. destruct ty as [|t ty']; [congruence|].
    apply stops_word_space, Hty. left. reflexivity. }
  unfold line_decl. rewrite Hs.
  unfold body. rewrite field_match_generated; [| exact Hty | exact Hnm | apply show_nat_not_nil
                                              | apply show_nat_digits].
  rewrite int_of_show_nat.
  destruct Hty as [Hty0 Hty]. destruct ty as [|t ty']; [congruence|].
  replace (is_nil _ || prefixb (L "//") _) with false; [reflexivity|].
  symmetry. simpl. exact (word_not_comment t _ (Hty t (or_introl eq_refl))).
Qed.

Lemma field_decls_free (l : str) : ~ In nl l -> field_decls l = line_decl l.
Proof. intros H. unfold field_decls. rewrite split_nl_free by exact H. apply app_nil_r. Qed.

Lemma field_decls_join (lines : list str) :
  (forall l, In l lines -> ~ In nl l) ->
  field_decls (join [nl] lines) = List.flat_map line_decl lines.
Proof.
  induction lines as [|x xs IH]; intros H; [reflexivity|].
  destruct xs as [|y ys].
  - simpl. rewrite app_nil_r. apply field_decls_free, H. left. reflexivity.
  - change (join [nl] (x :: y :: ys)) with (x ++ [nl] ++ join [nl] (y :: ys)).
    rewrite field_decls_app_nl, IH by (intros l Hl; apply H; right; exact Hl).
    rewrite field_decls_free by (apply H; left; reflexivity). reflexivity.
Qed.

Lemma generated_line_free (ty nm : str) (n : nat) :
  word ty -> word nm ->
  ~ In nl (L "    " ++ ty ++ L " " ++ nm ++ L " = " ++ show_nat n ++ L ";").
Proof.
  intros [_ Hty] [_ Hnm] H. rewrite !in_app_iff in H.
  destruct H as [H|[H|[H|[H|[H|[H|H]]]]]];
    try (simpl in H; intuition discriminate).
  - apply Hty in H. discriminate H.
  - apply Hnm in H. discriminate H.
  - apply show_nat_digits in H. discriminate H.
Qed.

Lemma additional_lines_cons (ce : list (str * (str * nat))) (next : nat) (nm : str) (ns : list str) :
  additional_lines ce next (nm :: ns)
  = (L "    " ++ type_of ce nm ++ L " " ++ nm ++ L " = " ++ show_nat next ++ L ";")
      :: additional_lines ce (S next) ns.
Proof. reflexivity. Qed.

(** The lines appended for [names] read back as [new_decls], one per line. *)
Lemma additional_lines_decls (ce : list (str * (str * nat))) (next : nat) (names : list str) :
  (forall nm, In nm names -> word nm /\ word (type_of ce nm)) ->
  List.flat_map line_decl (additional_lines ce next names) = new_decls ce next names
  /\ (forall l, In l (additional_lines ce next names) -> ~ In nl l).
Proof.
  revert next. induction names as [|nm ns IH]; intros next H; [split; [reflexivity|intros _ []]|].
  destruct (H nm (or_introl eq_refl)) as [Hnm Hty].
  destruct (IH (S next)) as [IH1 IH2]; [intros x Hx; apply H; right; exact Hx|].
  rewrite additional_lines_cons. split.
  - cbn [List.flat_map]. rewrite line_decl_generated by assumption. rewrite IH1. reflexivity.
  - intros l [<-|Hl]; [apply generated_line_free; assumption|auto].
Qed.

(** ** The dict of [extract_oneof_entries] *)

Lemma oneof_step_decls (st : list (str * (str * nat)) * nat) (l : str) :
  oneof_step st l = fold_left decl_step (line_decl l) st.
Proof.
  destruct st as [e m]. unfold oneof_step, line_decl. cbv beta iota zeta.
  destruct (is_nil (strip l) || prefixb (L "//") (strip l)); [reflexivity|].
  destruct (field_match (strip l)) as [[[ty nm] ds]|]; reflexivity.
Qed.

Lemma extract_decls (content : str) :
  extract_oneof_entries content = fold_left decl_step (field_decls content) ([], 0).
Proof.
  unfold extract_oneof_entries, field_decls. generalize (@nil (str * (str * nat)), 0).
  induction (split_nl content) as [|l ls IH]; intros st; [reflexivity|].
  simpl. rewrite fold_left_app, <- oneof_step_decls. apply IH.
Qed.

Lemma span_fst_all (f : ascii -> bool) (s a b : str) :
  span f s = (a, b) -> forall c, In c a -> f c = true.
Proof.
  revert a. induction s as [|d s IH]; intros a; simpl; [intros H; simplify_eq; intros _ []|].
  destruct (f d) eqn:Ed.
  - destruct (span f s) as [a' b'] eqn:E. intros H; simplify_eq.
    intros c [<-|Hc]; [exact Ed|]. eapply IH; [reflexivity|exact Hc].
  - intros H; simplify_eq. intros _ [].
Qed.

Lemma field_match_words (line ty nm ds : str) :
  field_match line = Some (ty, nm, ds) -> word ty /\ word nm.
Proof.
  unfold field_match.
  destruct (span is_word line) as [w1 r1] eqn:E1.
  destruct (span is_space r1) as [s1 r2] eqn:E2.
  destruct (span is_word r2) as [w2 r3] eqn:E3.
  destruct (span is_space r3) as [x r4] eqn:E4.
  cbv beta iota.
  destruct w1 as [|a1 w1']; [discriminate|]. destruct s1; [discriminate|].
  destruct w2 as [|a2 w2']; [discriminate|].
  destruct r4 as [|c r5]; [discriminate|]. destruct (ascii_eqb c "="%char); [|discriminate].
  destruct (span is_digit (drop_while is_space r5)) as [ds' r7].
  destruct ds'; [discriminate|]. destruct r7; [discriminate|].
  destruct (ascii_eqb _ ";"%char); [|discriminate].
  intros H. injection H as <- <- <-. split; split; try discriminate.
  - exact (span_fst_all _ _ _ _ E1).
  - exact (span_fst_all _ _ _ _ E3).
Qed.

Lemma field_decls_words (content : str) (ty nm : str) (n : nat) :
  In (ty, nm, n) (field_decls content) -> word ty /\ word nm.
Proof.
  unfold field_decls. rewrite in_flat_map. intros [l [_ Hl]]. revert Hl.
  unfold line_decl. destruct (is_nil (strip l) || prefixb (L "//") (strip l)); [intros []|].
  destruct (field_match (strip l)) as [[[ty' nm'] ds]|] eqn:E; [|intros []].
  intros [H|[]]. injection H as <- <- _. exact (field_match_words _ _ _ _ E).
Qed.

Lemma decl_fold_keys (ds : list (str * str * nat)) (st : list (str * (str * nat)) * nat) (x : str) :
  In x (keys (fst (fold_left decl_step ds st)))
  <-> In x (keys (fst st)) \/ exists d, In d ds /\ decl_name d = x.
Proof.
  revert st. induction ds as [|[[ty nm] n] ds IH]; intros [e m]; simpl.
  - split; [tauto|]. intros [H|[d [[] _]]]. exact H.
  - rewrite IH. simpl. rewrite keys_dict_set. split.
    + intros [[->|H]|[d [Hd <-]]]; [right; exists (ty, nm, n); auto|left; exact H|].
      right. exists d. auto.
    + intros [H|[d [[<-|Hd] <-]]]; [left; right; exact H|left; left; reflexivity|].
      right. exists d. auto.
Qed.

Lemma decl_fold_NoDup (ds : list (str * str * nat)) (st : list (str * (str * nat)) * nat) :
  List.NoDup (keys (fst st)) -> List.NoDup (keys (fst (fold_left decl_step ds st))).
Proof.
  revert st. induction ds as [|[[ty nm] n] ds IH]; intros [e m] H; simpl; [exact H|].
  apply IH. apply keys_dict_set_NoDup. exact H.
Qed.

Lemma decl_fold_get_other (ds : list (str * str * nat)) (st : list (str * (str * nat)) * nat) (x : str) :
  (forall d, In d ds -> decl_name d <> x) ->
  dict_get x (fst (fold_left decl_step ds st)) = dict_get x (fst st).
Proof.
  revert st. induction ds as [|[[ty nm] n] ds IH]; intros [e m] H; simpl; [reflexivity|].
  rewrite IH by (intros d Hd; apply H; right; exact Hd). simpl.
  rewrite dict_get_set. destruct (str_eqb x nm) eqn:E; [|reflexivity].
  apply str_eqb_true in E. exfalso. apply (H (ty, nm, n)); [left; reflexivity|symmetry; exact E].
Qed.

Lemma decl_fold_get_in (ds : list (str * str * nat)) (st : list (str * (str * nat)) * nat)
    (x ty : str) (n : nat) :
  dict_get x (fst (fold_left decl_step ds st)) = Some (ty, n) ->
  dict_get x (fst st) = Some (ty, n) \/ In (ty, x, n) ds.
Proof.
  revert st. induction ds as [|[[ty' nm] n'] ds IH]; intros [e m] H; simpl in *; [left; exact H|].
  destruct (IH _ H) as [H1|H1]; [|right; right; exact H1].
  simpl in H1. rewrite dict_get_set in H1. destruct (str_eqb x nm) eqn:E; [|left; exact H1].
  apply str_eqb_true in E. subst. injection H1 as -> ->. right. left. reflexivity.
Qed.

Lemma decl_fold_max (ds : list (str * str * nat)) (st : list (str * (str * nat)) * nat) :
  snd st <= snd (fold_left decl_step ds st)
  /\ forall d, In d ds -> decl_number d <= snd (fold_left decl_step ds st).
Proof.
  revert st. induction ds as [|[[ty nm] n] ds IH]; intros [e m]; simpl; [split; [lia|intros _ []]|].
  destruct (IH (dict_set nm (ty, n) e, Nat.max m n)) as [IH1 IH2]. simpl in IH1. split; [lia|].
  intros d [<-|Hd]; [simpl; lia|auto].
Qed.

(** The dict's keys are distinct non-empty words, each with a word as type. *)
Lemma entries_words (content nm ty : str) (n : nat) :
  dict_get nm (fst (extract_oneof_entries content)) = Some (ty, n) -> word nm /\ word ty.
Proof.
  rewrite extract_decls. intros H. apply decl_fold_get_in in H as [H|H]; [discriminate H|].
  apply field_decls_words in H. tauto.
Qed.

Lemma entries_keys (content x : str) :
  In x (keys (fst (extract_oneof_entries content)))
  <-> exists d, In d (field_decls content) /\ decl_name d = x.
Proof. rewrite extract_decls, decl_fold_keys. simpl. tauto. Qed.

Lemma entries_NoDup (content : str) : List.NoDup (keys (fst (extract_oneof_entries content))).
Proof. rewrite extract_decls. apply decl_fold_NoDup. constructor. Qed.

Lemma entries_max (content : str) :
  forall d, In d (field_decls content) -> decl_number d <= snd (extract_oneof_entries content).
Proof. rewrite extract_decls. apply decl_fold_max. Qed.

(** ** Independence from the iteration order of sets *)

Lemma perm_nil_iff (it : list str -> list str) (l : list str) :
  Permutation (it l) l -> (it l = [] <-> l = []).
Proof.
  intros H. split; intros E.
  - rewrite E in H. apply Permutation_nil. exact H.
  - subst l. symmetry in H. apply Permutation_nil. exact H.
Qed.

Lemma proto_merge_iter_indep (it : list str -> list str) (cur inc : str) :
  (forall l, Permutation (it l) l) ->
  proto_merge_section it cur inc = proto_merge_section insertion_order cur inc.
Proof.
  intros Hit. unfold proto_merge_section, insertion_order.
  destruct (extract_oneof_entries cur) as [ce cm], (extract_oneof_entries inc) as [ie im].
  cbv zeta. set (X := set_minus (keys ce) (keys ie)).
  rewrite (py_sorted_perm_eq (it X) X (Hit X)).
  pose proof (perm_nil_iff it X (Hit X)) as Hn.
  destruct (it X) as [|a l]; destruct X as [|b l']; try reflexivity.
  exfalso. assert (E : b :: l' = []) by (apply Hn; reflexivity). discriminate E.
Qed.

Lemma go_merge_iter_indep (it : list str -> list str) (cur inc : str) :
  (forall l, Permutation (it l) l) ->
  go_merge_section it cur inc = go_merge_section insertion_order cur inc.
Proof.
  intros Hit. unfold go_merge_section, insertion_order.
  rewrite (py_sorted_perm_eq _ _ (Hit _)). reflexivity.
Qed.

Lemma fold_replace_ext (f g : str -> str -> str) (cs : list conflict) (s : str) :
  (forall a b, f a b = g a b) ->
  fold_left (fun resolved c =>
               py_replace (full_match c) (f (current_content c) (incoming_content c)) resolved) cs s
  = fold_left (fun resolved c =>
               py_replace (full_match c) (g (current_content c) (incoming_content c)) resolved) cs s.
Proof.
  intros H. revert s. induction cs as [|c cs IH]; intros s; simpl; [reflexivity|].
  rewrite H. apply IH.
Qed.

(** The strategies do not depend on the order in which Python iterates
    a set. *)
Lemma resolve_file_iter_indep (it : list str -> list str) (file_name content : str) :
  (forall l, Permutation (it l) l) ->
  resolve_file it file_name content = resolve_file insertion_order file_name content.
Proof.
  intros Hit.
  assert (E : forall k, apply_strategy it k content = apply_strategy insertion_order k content).
  { intros [| |]; simpl; [unfold resolve_proto_conflict|unfold resolve_go_conflict|reflexivity];
      apply fold_replace_ext; intros a b.
    - apply proto_merge_iter_indep, Hit.
    - apply go_merge_iter_indep, Hit. }
  unfold resolve_file. rewrite E. reflexivity.
Qed.

(** ** What [resolve_proto_conflict] writes for one block *)

Lemma proto_merge_shape (cur inc : str) :
  proto_merge_section insertion_order cur inc
  = match proto_current_only cur inc with
    | [] => inc
    | names => rstrip inc ++ [nl] ++ join [nl]
                 (additional_lines (fst (extract_oneof_entries cur)) (proto_next_number cur inc) names)
    end
  /\ field_decls (proto_merge_section insertion_order cur inc)
     = field_decls inc ++ new_decls (fst (extract_oneof_entries cur)) (proto_next_number cur inc)
                                    (proto_current_only cur inc).
Proof.
  unfold proto_merge_section, insertion_order, proto_current_only, proto_next_number.
  destruct (extract_oneof_entries cur) as [ce cm] eqn:Ec.
  destruct (extract_oneof_entries inc) as [ie im] eqn:Ei.
  cbn [fst snd]. cbv zeta.
  destruct (set_minus (keys ce) (keys ie)) as [|x xs] eqn:Em.
  { change (py_sorted []) with (@nil str). split; [reflexivity|]. symmetry. apply app_nil_r. }
  pose proof (py_sorted_perm (x :: xs)) as Hp.
  destruct (py_sorted (x :: xs)) as [|y ys] eqn:Es.
  { apply Permutation_nil in Hp. discriminate Hp. }
  assert (Hw : forall nm, In nm (y :: ys) -> word nm /\ word (type_of ce nm)).
  { intros nm Hnm. apply (Permutation_in _ Hp) in Hnm. rewrite <- Em in Hnm.
    apply In_set_minus in Hnm as [Hk _]. apply dict_get_In_keys in Hk as [[ty n] Hg].
    unfold type_of. rewrite Hg.
    assert (Hg' : dict_get nm (fst (extract_oneof_entries cur)) = Some (ty, n)) by (rewrite Ec; exact Hg).
    exact (entries_words _ _ _ _ Hg'). }
  destruct (additional_lines_decls ce (Nat.max im cm + 1) (y :: ys) Hw) as [H1 H2].
  destruct (additional_lines ce (Nat.max im cm + 1) (y :: ys)) as [|l ls] eqn:Ea.
  { simpl in Ea. discriminate Ea. }
  split; [reflexivity|].
  rewrite field_decls_app_nl, field_decls_rstrip, field_decls_join by exact H2.
  rewrite H1. reflexivity.
Qed.

Lemma new_decls_names (ce : list (str * (str * nat))) (next : nat) (names : list str) :
  map decl_name (new_decls ce next names) = names
  /\ map decl_number (new_decls ce next names) = seq next (length names).
Proof.
  revert next. induction names as [|nm ns IH]; intros next; [split; reflexivity|].
  destruct (IH (S next)) as [IH1 IH2]. unfold new_decls in *. simpl. rewrite IH1, IH2. split; reflexivity.
Qed.

Lemma new_decls_fresh (cur inc : str) (d : str * str * nat) :
  In d (new_decls (fst (extract_oneof_entries cur)) (proto_next_number cur inc) (proto_current_only cur inc)) ->
  ~ In (decl_name d) (keys (fst (extract_oneof_entries inc)))
  /\ proto_next_number cur inc <= decl_number d.
Proof.
  intros Hd. destruct (new_decls_names (fst (extract_oneof_entries cur)) (proto_next_number cur inc)
                                        (proto_current_only cur inc)) as [H1 H2].
  split.
  - apply (in_map decl_name) in Hd. rewrite H1 in Hd. unfold proto_current_only in Hd.
    apply (Permutation_in _ (py_sorted_perm _)), In_set_minus in Hd. tauto.
  - apply (in_map decl_number) in Hd. rewrite H2, in_seq in Hd. lia.
Qed.

(** The claims on the schema-field strategy, stated for any iteration
    order of Python's sets. *)

(** C1: the names of current missing from incoming are appended, as new
    declaration lines after the incoming text (trailing blanks trimmed), in
    lexicographic order, with the type they have in current and the
    consecutive numbers from max(incoming max, current max) + 1; the
    declarations of the incoming text are kept as they are, ahead of the
    new ones. On the example of the spec, incoming [string Foo = 5;] and
    current [string Foo = 3;], [int Bar = 6;] give [string Foo = 5;]
    followed by [    int Bar = 7;]. *)
Theorem schema_fields_appended (it : list str -> list str) (cur inc : str) :
  (forall l, Permutation (it l) l) ->
  (forall nm, In nm (proto_current_only cur inc)
              <-> In nm (keys (fst (extract_oneof_entries cur)))
                  /\ ~ In nm (keys (fst (extract_oneof_entries inc))))
  /\ StronglySorted str_lt (proto_current_only cur inc)
  /\ proto_next_number cur inc
     = Nat.max (snd (extract_oneof_entries inc)) (snd (extract_oneof_entries cur)) + 1
  /\ proto_merge_section it cur inc
     = match proto_current_only cur inc with
       | [] => inc
       | names => rstrip inc ++ [nl] ++ join [nl]
                    (additional_lines (fst (extract_oneof_entries cur)) (proto_next_number cur inc) names)
       end
  /\ field_decls (proto_merge_section it cur inc)
     = field_decls inc ++ new_decls (fst (extract_oneof_entries cur)) (proto_next_number cur inc)
                                    (proto_current_only cur inc)
  /\ map decl_name (new_decls (fst (extract_oneof_entries cur)) (proto_next_number cur inc)
                              (proto_current_only cur inc)) = proto_current_only cur inc
  /\ map decl_number (new_decls (fst (extract_oneof_entries cur)) (proto_next_number cur inc)
                                (proto_current_only cur inc))
     = seq (proto_next_number cur inc) (length (proto_current_only cur inc))
  /\ resolve_file it (L "scan_result.proto")
       J["<<<<<<< HEAD"; "string Foo = 3;"; "int Bar = 6;"; "=======";
         "string Foo = 5;"; ">>>>>>> feature"]
     = {| fully_resolved := true; merged_text := J["string Foo = 5;"; "    int Bar = 7;"] |}.
Proof.
  intros Hit. rewrite proto_merge_iter_indep by exact Hit.
  destruct (proto_merge_shape cur inc) as [Hs Hd].
  destruct (new_decls_names (fst (extract_oneof_entries cur)) (proto_next_number cur inc)
                            (proto_current_only cur inc)) as [Hn1 Hn2].
  split; [|split; [|split; [reflexivity|split; [exact Hs|split; [exact Hd|split; [exact Hn1|split; [exact Hn2|]]]]]]].
  - intros nm. unfold proto_current_only. split.
    + intros H. apply (Permutation_in _ (py_sorted_perm _)), In_set_minus in H. exact H.
    + intros H. apply (Permutation_in _ (Permutation_sym (py_sorted_perm _))), In_set_minus. exact H.
  - unfold proto_current_only. apply py_sorted_strict.
    unfold set_minus. apply List.NoDup_filter, entries_NoDup.
  - rewrite resolve_file_iter_indep by exact Hit. vm_compute. reflexivity.
Qed.

Lemma schema_fields_appended_witness :
  (forall l, Permutation (insertion_order l) l)
  /\ field_decls (proto_merge_section insertion_order
                    J["string Foo = 3;"; "int Bar = 6;"] (L "string Foo = 5;"))
     = [(L "string", L "Foo", 5); (L "int", L "Bar", 7)].
Proof.
  split; [intros l; reflexivity|].
  destruct (schema_fields_appended insertion_order J["string Foo = 3;"; "int Bar = 6;"]
              (L "string Foo = 5;") (fun l => Permutation_refl l)) as (_ & _ & _ & _ & H & _).
  rewrite H. vm_compute. reflexivity.
Defined.

(** C2 fails when the incoming side itself gives one number to two names:
    the incoming numbering is kept, so the duplicate survives the merge. *)
Lemma schema_numbers_duplicated :
  resolve_file insertion_order (L "scan_result.proto")
    J["<<<<<<< a"; "int32 x = 1;"; "======="; "int32 y = 2;"; "int32 z = 2;"; ">>>>>>> b"]
  = {| fully_resolved := true;
       merged_text := J["int32 y = 2;"; "int32 z = 2;"; "    int32 x = 3;"] |}
  /\ map decl_number (field_decls J["int32 y = 2;"; "int32 z = 2;"; "    int32 x = 3;"]) = [2; 2; 3]
  /\ ~ List.NoDup [2; 2; 3].
Proof.
  split; [vm_compute; reflexivity|]. split; [vm_compute; reflexivity|].
  intros H. apply NoDup_cons_iff in H as [H _]. apply H. left. reflexivity.
Qed.

(** C2 (amended): the merged declarations are the incoming ones followed
    by the appended ones; every appended number is larger than every
    number of both sides, the appended numbers are pairwise distinct, and
    the merged text has no repeated number as soon as the incoming side
    has none. *)
Theorem schema_numbers_unique (it : list str -> list str) (cur inc : str) :
  (forall l, Permutation (it l) l) ->
  exists appended,
    field_decls (proto_merge_section it cur inc) = field_decls inc ++ appended
    /\ (forall d d', In d (field_decls inc ++ field_decls cur) -> In d' appended ->
          decl_number d < decl_number d')
    /\ List.NoDup (map decl_number appended)
    /\ (List.NoDup (map decl_number (field_decls inc)) ->
        List.NoDup (map decl_number (field_decls (proto_merge_section it cur inc)))).
Proof.
  intros Hit. rewrite proto_merge_iter_indep by exact Hit.
  destruct (proto_merge_shape cur inc) as [_ Hd]. rewrite Hd.
  set (appended := new_decls (fst (extract_oneof_entries cur)) (proto_next_number cur inc)
                             (proto_current_only cur inc)).
  assert (Hlt : forall d d', In d (field_decls inc ++ field_decls cur) -> In d' appended ->
            decl_number d < decl_number d').
  { intros d d' Hin Hd'. apply new_decls_fresh in Hd' as [_ Hn]. unfold proto_next_number in Hn.
    apply in_app_or in Hin as [Hin|Hin].
    - apply entries_max in Hin. lia.
    - apply entries_max in Hin. lia. }
  assert (Hnd : List.NoDup (map decl_number appended)).
  { unfold appended.
    destruct (new_decls_names (fst (extract_oneof_entries cur)) (proto_next_number cur inc)
                              (proto_current_only cur inc)) as [_ ->].
    apply seq_NoDup. }
  exists appended. split; [reflexivity|]. split; [exact Hlt|]. split; [exact Hnd|].
  intros Hinc. rewrite map_app. apply List.NoDup_app; [exact Hinc|exact Hnd|].
  intros x Hx Hx'. apply in_map_iff in Hx as [d [<- Hd1]].
  apply in_map_iff in Hx' as [d' [Hdd Hd2]].
  assert (Hl : decl_number d < decl_number d') by (apply Hlt; [apply in_or_app; left|]; assumption).
  lia.
Qed.

Lemma schema_numbers_unique_witness :
  (forall l, Permutation (insertion_order l) l)
  /\ List.NoDup (map decl_number (field_decls (proto_merge_section insertion_order
                                                 (L "int32 a = 1;") (L "int32 b = 1;")))).
Proof.
  assert (Hit : forall l, Permutation (insertion_order l) l) by (intros l; reflexivity).
  assert (Hinc : List.NoDup (map decl_number (field_decls (L "int32 b = 1;"))))
    by (vm_compute; constructor; [intros []|constructor]).
  split; [exact Hit|].
  destruct (schema_numbers_unique insertion_order (L "int32 a = 1;") (L "int32 b = 1;") Hit)
    as (appended & _ & _ & _ & H).
  exact (H Hinc).
Defined.


Lemma filter_none {A} (f : A -> bool) (l : list A) :
  (forall x, In x l -> f x = false) -> List.filter f l = [].
Proof.
  induction l as [|x l IH]; intros H; simpl; [reflexivity|].
  rewrite (H x (or_introl eq_refl)). apply IH. intros y Hy. apply H. right. exact Hy.
Qed.

(** C3: for a name declared on both sides, the declarations of that name
    in the merged text are exactly those of the incoming side (the
    current side's one is not written), and the entry the merged text
    gives it is the incoming one. *)
Theorem schema_incoming_supersedes (it : list str -> list str) (cur inc nm : str) :
  (forall l, Permutation (it l) l) ->
  In nm (keys (fst (extract_oneof_entries cur))) ->
  In nm (keys (fst (extract_oneof_entries inc))) ->
  List.filter (fun d => str_eqb (decl_name d) nm) (field_decls (proto_merge_section it cur inc))
  = List.filter (fun d => str_eqb (decl_name d) nm) (field_decls inc)
  /\ dict_get nm (fst (extract_oneof_entries (proto_merge_section it cur inc)))
     = dict_get nm (fst (extract_oneof_entries inc)).
Proof.
  intros Hit _ Hinc. rewrite proto_merge_iter_indep by exact Hit.
  destruct (proto_merge_shape cur inc) as [_ Hd].
  assert (Hne : forall d, In d (new_decls (fst (extract_oneof_entries cur)) (proto_next_number cur inc)
                                          (proto_current_only cur inc)) -> decl_name d <> nm).
  { intros d Hd' E. apply new_decls_fresh in Hd' as [Hk _]. rewrite E in Hk. exact (Hk Hinc). }
  split.
  - rewrite Hd, List.filter_app, (filter_none _ (new_decls _ _ _)); [apply app_nil_r|].
    intros d Hd'. destruct (str_eqb (decl_name d) nm) eqn:E; [|reflexivity].
    apply str_eqb_true in E. exfalso. exact (Hne d Hd' E).
  - rewrite !extract_decls, Hd, fold_left_app. apply decl_fold_get_other. exact Hne.
Qed.

Lemma schema_incoming_supersedes_witness :
  (forall l, Permutation (insertion_order l) l)
  /\ In (L "Foo") (keys (fst (extract_oneof_entries (L "string Foo = 3;"))))
  /\ In (L "Foo") (keys (fst (extract_oneof_entries (L "string Foo = 5;"))))
  /\ dict_get (L "Foo") (fst (extract_oneof_entries
       (proto_merge_section insertion_order (L "string Foo = 3;") (L "string Foo = 5;"))))
     = Some (L "string", 5).
Proof.
  assert (Hit : forall l, Permutation (insertion_order l) l) by (intros l; reflexivity).
  assert (H1 : In (L "Foo") (keys (fst (extract_oneof_entries (L "string Foo = 3;")))))
    by (vm_compute; left; reflexivity).
  assert (H2 : In (L "Foo") (keys (fst (extract_oneof_entries (L "string Foo = 5;")))))
    by (vm_compute; left; reflexivity).
  split; [exact Hit|split; [exact H1|split; [exact H2|]]].
  rewrite (proj2 (schema_incoming_supersedes insertion_order _ _ _ Hit H1 H2)).
  vm_compute. reflexivity.
Defined.

(** ** The import/case strategy and imports *)

(** C7 fails when a current-only case carries an import line in its body:
    the merged text then has an import the incoming side lacks (and the
    strategy still reports it as missing). *)
Lemma go_case_carries_import :
  let cur := L "case *pb.Foo:" ++ [nl] ++ L "import " ++ [dquote] ++ L "fmt" ++ [dquote] in
  extract_import_statements (L "x") = []
  /\ go_merge_section insertion_order cur (L "x")
     = L "x" ++ [nl; tab] ++ L "case *spb.Foo:" ++ [nl] ++ L "import " ++ [dquote] ++ L "fmt" ++ [dquote]
  /\ extract_import_statements (go_merge_section insertion_order cur (L "x")) = [L "fmt"]
  /\ go_reported_imports insertion_order cur (L "x") = [L "fmt"].
Proof. vm_compute. repeat split. Qed.

(** C7 (amended): the merged text of a block is the incoming text followed
    only by the appended current-only cases, so it depends on the current
    side only through its extracted cases, and is the incoming text itself
    when no case is appended; no import line is written for the imports
    missing from the incoming side, which are only reported: those of
    current, not of incoming, whose quoted path does not occur in the
    incoming text. *)
Theorem go_merge_adds_only_cases (it : list str -> list str) (cur cur' inc : str) :
  (forall l, Permutation (it l) l) ->
  go_merge_section it cur inc
  = inc ++ List.flat_map (fun t => [nl; tab] ++ match dict_get t (extract_switch_cases cur) with
                                                | Some code => code
                                                | None => []
                                                end)
                         (py_sorted (set_minus (keys (extract_switch_cases cur))
                                               (keys (extract_switch_cases inc))))
  /\ (extract_switch_cases cur' = extract_switch_cases cur ->
      go_merge_section it cur' inc = go_merge_section it cur inc)
  /\ (set_minus (keys (extract_switch_cases cur)) (keys (extract_switch_cases inc)) = [] ->
      go_merge_section it cur inc = inc)
  /\ (forall imp, In imp (go_reported_imports it cur inc)
        <-> In imp (extract_import_statements cur) /\ ~ In imp (extract_import_statements inc)
            /\ contains ([dquote] ++ imp ++ [dquote]) inc = false).
Proof.
  intros Hit.
  assert (H1 : forall c, go_merge_section it c inc
    = inc ++ List.flat_map (fun t => [nl; tab] ++ match dict_get t (extract_switch_cases c) with
                                                  | Some code => code
                                                  | None => []
                                                  end)
                           (py_sorted (set_minus (keys (extract_switch_cases c))
                                                 (keys (extract_switch_cases inc))))).
  { intros c. rewrite go_merge_iter_indep by exact Hit. reflexivity. }
  split; [apply H1|split; [|split]].
  - intros E. rewrite !H1, E. reflexivity.
  - intros E. rewrite H1, E. apply app_nil_r.
  - intros imp. unfold go_reported_imports.
    rewrite (py_sorted_perm_eq _ _ (Hit _)), List.filter_In, negb_true_iff.
    split.
    + intros [H Hc]. apply (Permutation_in _ (py_sorted_perm _)), In_set_minus in H. tauto.
    + intros [Ha [Hb Hc]]. split; [|exact Hc].
      apply (Permutation_in _ (Permutation_sym (py_sorted_perm _))), In_set_minus. tauto.
Qed.

Lemma go_merge_adds_only_cases_witness :
  (forall l, Permutation (insertion_order l) l)
  /\ go_merge_section insertion_order (J["case *pb.Foo:"; "return 1"]) (L "case *pb.Foo:")
     = L "case *pb.Foo:".
Proof.
  assert (Hit : forall l, Permutation (insertion_order l) l) by (intros l; reflexivity).
  split; [exact Hit|].
  apply (go_merge_adds_only_cases insertion_order _ (J["case *pb.Foo:"; "return 1"]) _ Hit).
  vm_compute. reflexivity.
Defined.

(** ** Determinism *)

(** C8: the schema-field and import/case strategies give the same text,
    and the whole per-file step the same outcome, whatever order Python
    iterates its sets in (two runs may use different hash seeds): the new
    entries and cases, and the reported imports, are taken in sorted
    order. *)
Theorem strategies_deterministic (it1 it2 : list str -> list str) (file_name content cur inc : str) :
  (forall l, Permutation (it1 l) l) -> (forall l, Permutation (it2 l) l) ->
  resolve_proto_conflict it1 content = resolve_proto_conflict it2 content
  /\ resolve_go_conflict it1 content = resolve_go_conflict it2 content
  /\ go_reported_imports it1 cur inc = go_reported_imports it2 cur inc
  /\ resolve_file it1 file_name content = resolve_file it2 file_name content.
Proof.
  intros H1 H2. split; [|split; [|split]].
  - unfold resolve_proto_conflict. apply fold_replace_ext. intros a b.
    rewrite (proto_merge_iter_indep it1), (proto_merge_iter_indep it2) by assumption.
    reflexivity.
  - unfold resolve_go_conflict. apply fold_replace_ext. intros a b.
    rewrite (go_merge_iter_indep it1), (go_merge_iter_indep it2) by assumption.
    reflexivity.
  - unfold go_reported_imports.
    rewrite (py_sorted_perm_eq (it1 _) _ (H1 _)), (py_sorted_perm_eq (it2 _) _ (H2 _)).
    reflexivity.
  - rewrite (resolve_file_iter_indep it1), (resolve_file_iter_indep it2) by assumption.
    reflexivity.
Qed.

Lemma strategies_deterministic_witness :
  (forall l, Permutation (insertion_order l) l) /\ (forall l, Permutation (@rev str l) l)
  /\ resolve_proto_conflict (@rev str)
       J["<<<<<<< HEAD"; "int32 b = 1;"; "int32 a = 2;"; "======="; "int32 c = 3;"; ">>>>>>> x"]
     = J["int32 c = 3;"; "    int32 a = 4;"; "    int32 b = 5;"].
Proof.
  assert (Hi : forall l, Permutation (insertion_order l) l) by (intros l; reflexivity).
  assert (Hr : forall l, Permutation (@rev str l) l) by (intros l; symmetry; apply Permutation_rev).
  split; [exact Hi|split; [exact Hr|]].
  rewrite (proj1 (strategies_deterministic (@rev str) insertion_order (L "scan_result.proto")
    J["<<<<<<< HEAD"; "int32 b = 1;"; "int32 a = 2;"; "======="; "int32 c = 3;"; ">>>>>>> x"]
    [] [] Hr Hi)).
  vm_compute. reflexivity.
Defined.

(** * Further properties of the resolver *)

(** ** Writing a block and parsing it back *)

Lemma prefixb_app_long (p x y : str) :
  length p <= length x -> prefixb p (x ++ y) = prefixb p x.
Proof.
  revert x. induction p as [|c p IH]; intros [|d x] Hl; simpl in *; try reflexivity; try lia.
  rewrite IH by lia. reflexivity.
Qed.

(** If [p] does not occur in [c :: a] followed by [p] without its last
    character, then no occurrence of [p] starts inside [c :: a]. *)
Lemma no_early_occurrence (p : str) (c : ascii) (a z : str) :
  contains p ((c :: a) ++ removelast p) = false ->
  prefixb p ((c :: a) ++ p ++ z) = false /\ contains p (a ++ removelast p) = false.
Proof.
  intros H. split.
  - destruct p as [|x p']; [discriminate H|].
    rewrite (app_removelast_last x (l := x :: p')) at 2 by discriminate.
    replace ((c :: a) ++ (removelast (x :: p') ++ [List.last (x :: p') x]) ++ z)
      with (((c :: a) ++ removelast (x :: p')) ++ List.last (x :: p') x :: z)
      by (rewrite <- !app_assoc; reflexivity).
    rewrite prefixb_app_long.
    + destruct (prefixb (x :: p') ((c :: a) ++ removelast (x :: p'))) eqn:E; [|reflexivity].
      rewrite contains_unfold, E in H. discriminate H.
    + pose proof (f_equal (@length ascii) (app_removelast_last x (l := x :: p') ltac:(discriminate))) as Hl.
      rewrite length_app in Hl. simpl in Hl |- *. rewrite length_app. lia.
  - exact (proj2 (contains_false_inv p [c] _ H)).
Qed.

Lemma span_line (r post : str) :
  ~ In nl r -> stops (fun c => negb (ascii_eqb c nl)) post ->
  span (fun c => negb (ascii_eqb c nl)) (r ++ post) = (r, post).
Proof.
  intros Hr Hp. apply span_app_stops; [|exact Hp].
  intros c Hc. apply negb_true_iff. destruct (ascii_eqb c nl) eqn:E; [|reflexivity].
  apply ascii_eqb_true in E. subst. contradiction.
Qed.

Lemma find_incoming_exact (b r post : str) :
  contains END_MARK (b ++ removelast END_MARK) = false -> r <> [] -> ~ In nl r ->
  stops (fun c => negb (ascii_eqb c nl)) post ->
  find_incoming (b ++ END_MARK ++ r ++ post) = Some (b, r, post).
Proof.
  intros Hb Hr Hnl Hp. induction b as [|c b IH].
  - rewrite app_nil_l, find_incoming_eq, prefixb_app.
    replace (drop 9 (END_MARK ++ r ++ post)) with (r ++ post)
      by (change 9 with (length END_MARK); symmetry; apply drop_app_length).
    rewrite span_line by assumption. destruct r; [congruence|reflexivity].
  - destruct (no_early_occurrence END_MARK c b (r ++ post) Hb) as [H1 H2].
    rewrite find_incoming_eq, H1. cbn [app]. rewrite IH by exact H2. reflexivity.
Qed.

Lemma find_separator_exact (a b r post : str) :
  contains SEP_LINE (a ++ removelast SEP_LINE) = false ->
  contains END_MARK (b ++ removelast END_MARK) = false -> r <> [] -> ~ In nl r ->
  stops (fun c => negb (ascii_eqb c nl)) post ->
  find_separator (a ++ SEP_LINE ++ b ++ END_MARK ++ r ++ post) = Some (a, b, r, post).
Proof.
  intros Ha Hb Hr Hnl Hp. induction a as [|c a IH].
  - rewrite app_nil_l, find_separator_eq, prefixb_app.
    replace (drop 9 (SEP_LINE ++ b ++ END_MARK ++ r ++ post)) with (b ++ END_MARK ++ r ++ post)
      by (change 9 with (length SEP_LINE); symmetry; apply drop_app_length).
    rewrite find_incoming_exact by assumption. reflexivity.
  - destruct (no_early_occurrence SEP_LINE c a (b ++ END_MARK ++ r ++ post) Ha) as [H1 H2].
    rewrite find_separator_eq, H1. cbn [app]. rewrite IH by exact H2. reflexivity.
Qed.

Lemma conflict_match_at_exact (r1 a b r2 post : str) :
  r1 <> [] -> ~ In nl r1 ->
  contains SEP_LINE (a ++ removelast SEP_LINE) = false ->
  contains END_MARK (b ++ removelast END_MARK) = false -> r2 <> [] -> ~ In nl r2 ->
  stops (fun c => negb (ascii_eqb c nl)) post ->
  conflict_match_at (START_MARK ++ r1 ++ [nl] ++ a ++ SEP_LINE ++ b ++ END_MARK ++ r2 ++ post)
  = Some ({| current_ref := r1; current_content := a; incoming_ref := r2; incoming_content := b;
             full_match := START_MARK ++ r1 ++ [nl] ++ a ++ SEP_LINE ++ b ++ END_MARK ++ r2 |},
          post).
Proof.
  intros Hr1 Hn1 Ha Hb Hr2 Hn2 Hp. unfold conflict_match_at. rewrite prefixb_app.
  replace (drop 8 (START_MARK ++ r1 ++ [nl] ++ a ++ SEP_LINE ++ b ++ END_MARK ++ r2 ++ post))
    with (r1 ++ [nl] ++ a ++ SEP_LINE ++ b ++ END_MARK ++ r2 ++ post)
    by (change 8 with (length START_MARK); symmetry; apply drop_app_length).
  rewrite span_line by (exact Hn1 || reflexivity). cbn [app].
  rewrite find_separator_exact by assumption.
  destruct r1; [congruence|]. reflexivity.
Qed.

Lemma conflict_match_at_shorter (s rest : str) (b : conflict) :
  conflict_match_at s = Some (b, rest) -> length rest < length s.
Proof.
  intros H. destruct (conflict_match_at_split _ _ _ H) as [E1 E2].
  rewrite E1, length_app, E2. unfold START_MARK. simpl. lia.
Qed.

(** [finditer] needs no more steps than the text has characters. *)
Lemma scan_conflicts_fuel (f1 f2 : nat) (s : str) :
  length s <= f1 -> length s <= f2 -> scan_conflicts f1 s = scan_conflicts f2 s.
Proof.
  revert f2 s. induction f1 as [|f1 IH]; intros f2 s H1 H2.
  - destruct s; [|simpl in H1; lia]. destruct f2; reflexivity.
  - destruct s as [|c t]; [destruct f2; reflexivity|].
    destruct f2 as [|f2]; [simpl in H2; lia|]. simpl.
    destruct (conflict_match_at (c :: t)) as [[b rest]|] eqn:E.
    + apply conflict_match_at_shorter in E. simpl in E.
      f_equal. apply IH; simpl in *; lia.
    + apply IH; simpl in *; lia.
Qed.

Lemma scan_conflicts_skip (f : nat) (pre y : str) :
  contains START_MARK (pre ++ removelast START_MARK) = false ->
  scan_conflicts (length pre + f) (pre ++ START_MARK ++ y) = scan_conflicts f (START_MARK ++ y).
Proof.
  induction pre as [|c pre IH]; intros H; [reflexivity|].
  destruct (no_early_occurrence START_MARK c pre y H) as [H1 H2].
  assert (Hm : conflict_match_at ((c :: pre) ++ START_MARK ++ y) = None)
    by (unfold conflict_match_at; rewrite H1; reflexivity).
  change (length (c :: pre) + f) with (S (length pre + f)).
  change ((c :: pre) ++ START_MARK ++ y) with (c :: (pre ++ START_MARK ++ y)) in *.
  cbn [scan_conflicts]. rewrite Hm. apply IH, H2.
Qed.

Lemma scan_conflicts_step (f : nat) (s rest : str) (b : conflict) :
  conflict_match_at s = Some (b, rest) -> scan_conflicts (S f) s = b :: scan_conflicts f rest.
Proof.
  intros H. destruct s as [|c t].
  - unfold conflict_match_at in H. simpl in H. discriminate H.
  - simpl. rewrite H. reflexivity.
Qed.

Lemma parse_block_at (pre r1 a b r2 post : str) :
  contains START_MARK (pre ++ removelast START_MARK) = false ->
  r1 <> [] -> ~ In nl r1 ->
  contains SEP_LINE (a ++ removelast SEP_LINE) = false ->
  contains END_MARK (b ++ removelast END_MARK) = false ->
  r2 <> [] -> ~ In nl r2 ->
  (post = [] \/ exists post', post = nl :: post') ->
  parse_conflict_sections
    (pre ++ START_MARK ++ r1 ++ [nl] ++ a ++ SEP_LINE ++ b ++ END_MARK ++ r2 ++ post)
  = {| current_ref := r1; current_content := a; incoming_ref := r2; incoming_content := b;
       full_match := START_MARK ++ r1 ++ [nl] ++ a ++ SEP_LINE ++ b ++ END_MARK ++ r2 |}
    :: parse_conflict_sections post.
Proof.
  intros Hpre Hr1 Hn1 Ha Hb Hr2 Hn2 Hpost.
  assert (Hp : stops (fun c => negb (ascii_eqb c nl)) post)
    by (destruct Hpost as [->|[post' ->]]; reflexivity).
  unfold parse_conflict_sections.
  set (y := r1 ++ [nl] ++ a ++ SEP_LINE ++ b ++ END_MARK ++ r2 ++ post).
  rewrite length_app, scan_conflicts_skip by exact Hpre.
  replace (length (START_MARK ++ y)) with (S (7 + length y)) by (rewrite length_app; reflexivity).
  rewrite (scan_conflicts_step _ _ post _ (conflict_match_at_exact r1 a b r2 post Hr1 Hn1 Ha Hb Hr2 Hn2 Hp)).
  f_equal. apply scan_conflicts_fuel; [|lia].
  unfold y. rewrite !length_app. lia.
Qed.

(** Parsing a text made of a prefix without [<<<<<<< ], one well-formed
    block and a rest gives that block, then the blocks of the rest. *)
Theorem parse_written_block (pre r1 a b r2 post : str) :
  contains START_MARK (pre ++ removelast START_MARK) = false ->
  r1 <> [] -> ~ In nl r1 ->
  contains SEP_LINE (a ++ removelast SEP_LINE) = false ->
  contains END_MARK (b ++ removelast END_MARK) = false ->
  r2 <> [] -> ~ In nl r2 ->
  (post = [] \/ exists post', post = nl :: post') ->
  parse_conflict_sections
    (pre ++ START_MARK ++ r1 ++ [nl] ++ a ++ SEP_LINE ++ b ++ END_MARK ++ r2 ++ post)
  = {| current_ref := r1; current_content := a; incoming_ref := r2; incoming_content := b;
       full_match := START_MARK ++ r1 ++ [nl] ++ a ++ SEP_LINE ++ b ++ END_MARK ++ r2 |}
    :: parse_conflict_sections post.
Proof. exact (parse_block_at pre r1 a b r2 post). Qed.

Lemma find_incoming_ref (t g3 g4 rest : str) :
  find_incoming t = Some (g3, g4, rest) -> g4 <> [] /\ ~ In nl g4.
Proof.
  revert g3 g4 rest. induction t as [|c t IH]; intros g3 g4 rest H;
    rewrite find_incoming_eq in H; [discriminate|].
  destruct (prefixb END_MARK (c :: t)).
  - destruct (span _ (drop 9 (c :: t))) as [g r] eqn:Es. destruct g as [|x g].
    + destruct (find_incoming t) as [[[a b] d]|] eqn:Ef; simplify_eq. eauto.
    + simplify_eq. split; [discriminate|]. intros Hin.
      pose proof (span_fst_all _ _ _ _ Es nl Hin) as Hc. simpl in Hc. discriminate Hc.
  - destruct (find_incoming t) as [[[a b] d]|] eqn:Ef; simplify_eq. eauto.
Qed.

Lemma find_separator_ref (t g2 g3 g4 rest : str) :
  find_separator t = Some (g2, g3, g4, rest) -> g4 <> [] /\ ~ In nl g4.
Proof.
  revert g2 g3 g4 rest. induction t as [|c t IH]; intros g2 g3 g4 rest H;
    rewrite find_separator_eq in H; [discriminate|].
  destruct (prefixb SEP_LINE (c :: t)).
  - destruct (find_incoming (drop 9 (c :: t))) as [[[a b] d]|] eqn:Ef.
    + simplify_eq. eapply find_incoming_ref. exact Ef.
    + destruct (find_separator t) as [[[[a b] d] e]|] eqn:Eg; simplify_eq. eauto.
  - destruct (find_separator t) as [[[[a b] d] e]|] eqn:Eg; simplify_eq. eauto.
Qed.

Lemma conflict_match_at_refs (s rest : str) (b : conflict) :
  conflict_match_at s = Some (b, rest) ->
  current_ref b <> [] /\ ~ In nl (current_ref b) /\ incoming_ref b <> [] /\ ~ In nl (incoming_ref b).
Proof.
  unfold conflict_match_at. intros H.
  destruct (prefixb START_MARK s); [|discriminate].
  destruct (span _ (drop 8 s)) as [g1 r0] eqn:Es.
  destruct r0 as [|c r]; [discriminate|].
  destruct g1 as [|x g1]; [discriminate|].
  destruct (find_separator r) as [[[[g2 g3] g4] rest']|] eqn:Ef; [|discriminate].
  simplify_eq. simpl. apply find_separator_ref in Ef as [Hg1 Hg2].
  split; [discriminate|split; [|tauto]]. intros Hin.
  pose proof (span_fst_all _ _ _ _ Es nl Hin) as Hc. simpl in Hc. discriminate Hc.
Qed.

(** ** Regions with an empty side, in a longer buffer *)












(** The blocks [parse_conflict_sections] returns never overlap and come
    in text order: the text is the blocks' full texts separated by
    unparsed pieces, plus a rest; each block is well formed. *)
Theorem parse_conflict_sections_cover (content : str) :
  (exists pres rest,
      length pres = length (parse_conflict_sections content) /\
      content = weave pres (map full_match (parse_conflict_sections content)) ++ rest)
  /\ Forall block_well_formed (parse_conflict_sections content).
Proof.
  unfold parse_conflict_sections. generalize (length content) as f. intros f.
  revert content. induction f as [|f IH]; intros s.
  - split; [exists [], s; split; reflexivity | constructor].
  - destruct s as [|c t]; [split; [exists [], []; split; reflexivity | constructor]|].
    cbn [scan_conflicts]. destruct (conflict_match_at (c :: t)) as [[b rest]|] eqn:E.
    + destruct (IH rest) as [[pres [rest' [Hl He]]] Hf].
      destruct (conflict_match_at_split _ _ _ E) as [Hs Hb].
      destruct (conflict_match_at_refs _ _ _ E) as [H1 [H2 [H3 H4]]].
      split.
      * exists ([] :: pres), rest'. split; [simpl; lia|].
        rewrite Hs, He at 1. cbn [map weave]. rewrite app_nil_l, <- app_assoc. reflexivity.
      * constructor; [|exact Hf]. unfold block_well_formed. tauto.
    + destruct (IH t) as [[pres [rest' [Hl He]]] Hf]. split; [|exact Hf].
      destruct pres as [|p ps].
      * exists [], (c :: rest'). destruct (scan_conflicts f t); [|discriminate Hl].
        split; [reflexivity|]. simpl in He |- *. rewrite He. reflexivity.
      * exists ((c :: p) :: ps), rest'. split; [exact Hl|].
        destruct (scan_conflicts f t) as [|b bs]; [discriminate Hl|].
        simpl in He |- *. rewrite He. reflexivity.
Qed.

(** ** Replacing the block's text *)

Lemma prefixb_short (p s : str) : length s < length p -> prefixb p s = false.
Proof.
  revert s. induction p as [|c p IH]; intros [|d s] H; simpl in *; try lia; try reflexivity.
  rewrite IH by lia. apply andb_false_r.
Qed.

Lemma contains_short (p s : str) : length s < length p -> contains p s = false.
Proof.
  induction s as [|c s IH]; intros H; rewrite contains_unfold, prefixb_short by exact H.
  - destruct p; [simpl in H; lia|reflexivity].
  - simpl in H. apply IH. lia.
Qed.

Lemma prefixb_app_inv (p q s : str) : prefixb (p ++ q) s = true -> prefixb p s = true.
Proof.
  revert s. induction p as [|c p IH]; intros [|d s] H; simpl in *; try reflexivity; try discriminate.
  apply andb_true_iff in H as [H1 H2]. rewrite H1. simpl. eauto.
Qed.

Lemma contains_app_inv (p q s : str) : contains (p ++ q) s = true -> contains p s = true.
Proof.
  induction s as [|c s IH]; intros H; rewrite contains_unfold in H |- *;
    apply orb_true_iff in H as [H|H].
  - rewrite (prefixb_app_inv _ _ _ H). reflexivity.
  - discriminate H.
  - rewrite (prefixb_app_inv _ _ _ H). reflexivity.
  - apply orb_true_iff. right. eauto.
Qed.

Lemma removelast_app_ext (p q : str) : p <> [] -> exists z, removelast (p ++ q) = removelast p ++ z.
Proof.
  intros Hp. destruct q as [|x q].
  - exists []. rewrite !app_nil_r. reflexivity.
  - exists ([List.last p x] ++ removelast (x :: q)).
    rewrite List.removelast_app by discriminate.
    rewrite (app_removelast_last x Hp) at 1. rewrite <- app_assoc. reflexivity.
Qed.

Lemma length_removelast_nonnil (l : str) : l <> [] -> S (length (removelast l)) = length l.
Proof.
  intros H. destruct l as [|x l']; [congruence|].
  rewrite (app_removelast_last x H) at 2. rewrite length_app. simpl. lia.
Qed.

(** No early occurrence of [p] rules out one of any text starting with [p]. *)
Lemma no_early_longer (p q x : str) :
  p <> [] -> contains p (x ++ removelast p) = false ->
  contains (p ++ q) (x ++ removelast (p ++ q)) = false.
Proof.
  intros Hp. destruct (removelast_app_ext p q Hp) as [z Hz].
  induction x as [|c x IH]; intros H.
  - apply contains_short. rewrite app_nil_l.
    assert (Hn : p ++ q <> []) by (destruct p; [congruence|discriminate]).
    pose proof (length_removelast_nonnil _ Hn). lia.
  - rewrite contains_unfold. apply orb_false_iff. split.
    + destruct (prefixb (p ++ q) ((c :: x) ++ removelast (p ++ q))) eqn:E; [|reflexivity].
      apply prefixb_app_inv in E. rewrite Hz, app_assoc, prefixb_app_long in E.
      * rewrite contains_unfold, E in H. discriminate H.
      * pose proof (length_removelast_nonnil _ Hp). rewrite length_app. simpl. lia.
    + cbn [app]. apply IH. exact (proj2 (contains_false_inv p [c] _ H)).
Qed.

Lemma replace_fuel_skip (f : nat) (old new pre y : str) :
  contains old (pre ++ removelast old) = false ->
  replace_fuel (length pre + f) old new (pre ++ old ++ y) = pre ++ replace_fuel f old new (old ++ y).
Proof.
  induction pre as [|c pre IH]; intros H; [reflexivity|].
  destruct (no_early_occurrence old c pre y H) as [H1 H2].
  change (length (c :: pre) + f) with (S (length pre + f)).
  change ((c :: pre) ++ old ++ y) with (c :: (pre ++ old ++ y)) in *.
  cbn [replace_fuel]. rewrite H1, IH by exact H2. reflexivity.
Qed.

Lemma replace_fuel_none (f : nat) (old new s : str) :
  old <> [] -> contains old s = false -> replace_fuel f old new s = s.
Proof.
  intros Ho. revert s. induction f as [|f IH]; intros s H; [reflexivity|].
  destruct s as [|c t]; [reflexivity|]. cbn [replace_fuel].
  destruct (contains_false_inv old [] (c :: t) H) as [-> _].
  rewrite IH; [reflexivity|]. exact (proj2 (contains_false_inv old [c] t H)).
Qed.

(** [s.replace(old, new)] on a text with exactly one occurrence. *)
Lemma py_replace_once (old new pre post : str) :
  old <> [] -> contains old (pre ++ removelast old) = false -> contains old post = false ->
  py_replace old new (pre ++ old ++ post) = pre ++ new ++ post.
Proof.
  intros Ho Hpre Hpost. destruct old as [|x o]; [congruence|]. unfold py_replace.
  rewrite length_app, replace_fuel_skip by exact Hpre. f_equal.
  rewrite length_app. cbn [length plus].
  cbn [app replace_fuel].
  rewrite (app_comm_cons o post x), prefixb_app.
  replace (drop (length (x :: o)) ((x :: o) ++ post)) with post
    by (symmetry; apply drop_app_length).
  rewrite replace_fuel_none by assumption. reflexivity.
Qed.

(** ** One block in a buffer *)

(** A buffer holding one well-formed block, with no [<<<<<<< ] before it
    (not even overlapping it) nor after it: every strategy replaces the
    block's text by its merge of the two sides and keeps the rest. *)
Theorem strategy_single_block (it : list str -> list str) (k : strategy)
    (pre r1 a b r2 post : str) :
  contains START_MARK (pre ++ removelast START_MARK) = false ->
  r1 <> [] -> ~ In nl r1 ->
  contains SEP_LINE (a ++ removelast SEP_LINE) = false ->
  contains END_MARK (b ++ removelast END_MARK) = false ->
  r2 <> [] -> ~ In nl r2 ->
  (post = [] \/ exists post', post = nl :: post') ->
  contains START_MARK post = false ->
  apply_strategy it k
    (pre ++ START_MARK ++ r1 ++ [nl] ++ a ++ SEP_LINE ++ b ++ END_MARK ++ r2 ++ post)
  = pre ++ merge_section it k a b ++ post.
Proof.
  intros Hpre Hr1 Hn1 Ha Hb Hr2 Hn2 Hpost Hs.
  set (fm := START_MARK ++ r1 ++ [nl] ++ a ++ SEP_LINE ++ b ++ END_MARK ++ r2).
  assert (Hc : pre ++ START_MARK ++ r1 ++ [nl] ++ a ++ SEP_LINE ++ b ++ END_MARK ++ r2 ++ post
               = pre ++ fm ++ post) by (unfold fm; rewrite <- !app_assoc; reflexivity).
  assert (Hp : parse_conflict_sections (pre ++ fm ++ post)
               = [{| current_ref := r1; current_content := a; incoming_ref := r2;
                     incoming_content := b; full_match := fm |}]).
  { rewrite <- Hc, parse_block_at by assumption. f_equal.
    unfold parse_conflict_sections. apply scan_conflicts_no_start, Hs. }
  assert (Hr : forall M, py_replace fm M (pre ++ fm ++ post) = pre ++ M ++ post).
  { intros M. apply py_replace_once.
    - unfold fm, START_MARK. discriminate.
    - unfold fm. apply no_early_longer; [unfold START_MARK; discriminate|exact Hpre].
    - destruct (contains fm post) eqn:E; [|reflexivity].
      unfold fm in E. apply contains_app_inv in E. congruence. }
  rewrite Hc. destruct k; cbn [apply_strategy merge_section];
    unfold resolve_proto_conflict, resolve_go_conflict, resolve_generic_conflict;
    rewrite Hp; cbn [fold_left full_match current_content incoming_content]; apply Hr.
Qed.

Lemma parse_written_block_witness :
  parse_conflict_sections
    (L "a" ++ [nl] ++ START_MARK ++ L "HEAD" ++ [nl] ++ L "x" ++ SEP_LINE ++ L "y"
       ++ END_MARK ++ L "feature" ++ [nl] ++ L "z")
  = {| current_ref := L "HEAD"; current_content := L "x"; incoming_ref := L "feature";
       incoming_content := L "y";
       full_match := START_MARK ++ L "HEAD" ++ [nl] ++ L "x" ++ SEP_LINE ++ L "y"
                     ++ END_MARK ++ L "feature" |}
    :: parse_conflict_sections ([nl] ++ L "z").
Proof.
  rewrite (app_assoc (L "a") [nl]).
  apply (parse_written_block (L "a" ++ [nl]) (L "HEAD") (L "x") (L "y") (L "feature") ([nl] ++ L "z"));
    try reflexivity; try discriminate; try (cbv; intuition discriminate).
  right. exists (L "z"). reflexivity.
Defined.

Lemma strategy_single_block_witness :
  apply_strategy insertion_order Generic
    (L "a" ++ [nl] ++ START_MARK ++ L "HEAD" ++ [nl] ++ L "x" ++ SEP_LINE ++ L "y"
       ++ END_MARK ++ L "feature" ++ [nl] ++ L "z")
  = (L "a" ++ [nl]) ++ merge_section insertion_order Generic (L "x") (L "y") ++ [nl] ++ L "z".
Proof.
  rewrite (app_assoc (L "a") [nl]).
  apply (strategy_single_block insertion_order Generic (L "a" ++ [nl]) (L "HEAD") (L "x") (L "y")
           (L "feature") ([nl] ++ L "z"));
    try reflexivity; try discriminate; try (cbv; intuition discriminate).
  right. exists (L "z"). reflexivity.
Defined.

(** ** Selecting the conflicted files from [git status] *)

Lemma split_ws_acc_words (s cur : str) :
  (forall c, In c cur -> is_space c = false) ->
  Forall (fun x => x <> [] /\ forall c, In c x -> is_space c = false) (split_ws_acc s cur).
Proof.
  revert cur. induction s as [|c s IH]; intros cur Hc; simpl.
  - destruct cur as [|d cur]; simpl; [constructor|].
    constructor; [|constructor]. split.
    + intros H. apply (f_equal (@length ascii)) in H. rewrite length_app in H. simpl in H. lia.
    + intros x Hx. apply Hc. apply in_rev. exact Hx.
  - destruct (is_space c) eqn:E.
    + destruct cur as [|d cur]; simpl; [apply IH; intros _ []|].
      constructor; [|apply IH; intros _ []]. split.
      * intros H. apply (f_equal (@length ascii)) in H. rewrite length_app in H. simpl in H. lia.
      * intros x Hx. apply Hc. apply in_rev. exact Hx.
    + apply IH. intros x [<-|Hx]; auto.
Qed.

Lemma split_ws_acc_nonnil (s cur : str) :
  (cur <> [] \/ exists c, In c s /\ is_space c = false) -> split_ws_acc s cur <> [].
Proof.
  revert cur. induction s as [|c s IH]; intros cur H; simpl.
  - destruct H as [H|[c [[] _]]]. destruct cur; [congruence|discriminate].
  - destruct (is_space c) eqn:E.
    + destruct cur as [|d cur]; [|discriminate]. apply IH.
      destruct H as [H|[x [[<-|Hx] Hs]]]; [congruence|congruence|].
      right. eauto.
    + apply IH. left. discriminate.
Qed.

Lemma prefixb_head_in (c : ascii) (p s : str) : prefixb (c :: p) s = true -> In c s.
Proof.
  destruct s as [|d s]; simpl; [discriminate|].
  intros H. apply andb_true_iff in H as [H _]. apply ascii_eqb_true in H. left. congruence.
Qed.

Lemma contains_head_in (c : ascii) (p s : str) : contains (c :: p) s = true -> In c s.
Proof.
  induction s as [|d s IH]; intros H; rewrite contains_unfold in H;
    apply orb_true_iff in H as [H|H].
  - exact (prefixb_head_in _ _ _ H).
  - discriminate H.
  - exact (prefixb_head_in _ _ _ H).
  - right. apply IH, H.
Qed.

Lemma conflict_line_visible (line : str) :
  is_conflict_line line = true -> exists c, In c line /\ is_space c = false.
Proof.
  unfold is_conflict_line. intros H. apply orb_true_iff in H as [H|H]; [apply orb_true_iff in H as [H|H]|].
  - exists "U"%char. split; [exact (prefixb_head_in _ _ _ H)|reflexivity].
  - exists "A"%char. split; [exact (prefixb_head_in _ _ _ H)|reflexivity].
  - exists "b"%char. split; [exact (contains_head_in _ _ _ H)|reflexivity].
Qed.

Lemma last_in {A} (xs : list A) (d : A) : xs <> [] -> In (List.last xs d) xs.
Proof.
  induction xs as [|y xs IH]; intros H; [congruence|].
  destruct xs as [|z xs]; [left; reflexivity|].
  change (List.last (y :: z :: xs) d) with (List.last (z :: xs) d). right. apply IH. discriminate.
Qed.

Lemma py_last_in {A} (xs : list A) (x : A) : py_last xs = Some x -> In x xs.
Proof.
  destruct xs as [|y xs]; [discriminate|]. intros H. injection H as <-.
  exact (last_in (y :: xs) y ltac:(discriminate)).
Qed.

Lemma select_conflicted_spec (lines : list str) :
  exists ps, select_conflicted lines = Some ps
  /\ length ps = length (List.filter is_conflict_line lines)
  /\ Forall (fun p => p <> [] /\ forall c, In c p -> is_space c = false) ps.
Proof.
  induction lines as [|line lines IH]; simpl.
  - exists []. repeat split; constructor.
  - destruct IH as [ps [Hs [Hl Hf]]]. rewrite Hs.
    destruct (is_conflict_line line) eqn:E; [|exists ps; auto].
    destruct (py_last (py_split_ws line)) as [p|] eqn:Ep.
    + exists (p :: ps). split; [reflexivity|]. split; [simpl; lia|].
      constructor; [|exact Hf].
      apply py_last_in in Ep. unfold py_split_ws in Ep.
      pose proof (split_ws_acc_words line [] ltac:(intros _ [])) as Hw.
      rewrite List.Forall_forall in Hw. exact (Hw p Ep).
    + exfalso. unfold py_split_ws in Ep.
      destruct (split_ws_acc line []) as [|y ys] eqn:Ew; [|discriminate Ep].
      apply (split_ws_acc_nonnil line []); [|exact Ew].
      right. apply conflict_line_visible, E.
Qed.

(** Picking [line.split()[-1]] from each selected line of [git status]
    never raises: every line the loop selects has a non-blank character.
    It yields one path per selected line, each non-empty and without
    whitespace (so a path with a space is cut to its last word). *)
Theorem select_conflicted_total (lines : list str) :
  exists ps, select_conflicted lines = Some ps
  /\ length ps = length (List.filter is_conflict_line lines)
  /\ Forall (fun p => p <> [] /\ forall c, In c p -> is_space c = false) ps.
Proof. exact (select_conflicted_spec lines). Qed.

(** ** The loop over the conflicted files *)

Section DriverFacts.
Variable set_iter : list str -> list str.
Variable io_fails : io_call -> bool.
Variable write_left : str -> str -> option (option str).

Lemma dict_get_remove {V} (k t : str) (d : list (str * V)) :
  dict_get t (dict_remove k d) = if str_eqb t k then None else dict_get t d.
Proof.
  induction d as [|[k' v] d IH]; simpl; [destruct (str_eqb t k); reflexivity|].
  destruct (str_eqb k k') eqn:E1; simpl.
  - apply str_eqb_true in E1. subst k'. rewrite IH. destruct (str_eqb t k); reflexivity.
  - rewrite IH. destruct (str_eqb t k') eqn:E2; [|reflexivity].
    apply str_eqb_true in E2. subst k'.
    destruct (str_eqb t k) eqn:E3; [|reflexivity].
    apply str_eqb_true in E3. subst. rewrite str_eqb_refl in E1. discriminate.
Qed.

Lemma str_eqb_neq (a b : str) : a <> b -> str_eqb a b = false.
Proof. intros H. destruct (str_eqb a b) eqn:E; [apply str_eqb_true in E; congruence|reflexivity]. Qed.

Lemma resolve_one_commands (dry_run : bool) (p : str) (w : world) (r : list str) :
  commands (fst (resolve_one set_iter io_fails write_left dry_run p w r)) = commands w.
Proof.
  unfold resolve_one, has_merge_conflicts_file.
  destruct (dict_get p (files w)) as [c|]; [|reflexivity].
  destruct (io_fails (Read p)); [reflexivity|].
  destruct (has_merge_conflicts c); [|reflexivity].
  destruct (contains START_MARK _); [reflexivity|]. destruct dry_run; [reflexivity|].
  destruct (io_fails (Rename _ _)); [reflexivity|].
  destruct (write_left p _) as [[t|]|]; reflexivity.
Qed.

Lemma resolve_one_dry (p : str) (w : world) (r : list str) :
  fst (resolve_one set_iter io_fails write_left true p w r) = w.
Proof.
  unfold resolve_one, has_merge_conflicts_file.
  destruct (dict_get p (files w)) as [c|]; [|reflexivity].
  destruct (io_fails (Read p)); [reflexivity|].
  destruct (has_merge_conflicts c); [|reflexivity].
  destruct (contains START_MARK _); reflexivity.
Qed.

Lemma resolve_one_other (dry_run : bool) (p q : str) (w : world) (r : list str) :
  q <> p -> q <> backup_path p ->
  dict_get q (files (fst (resolve_one set_iter io_fails write_left dry_run p w r)))
  = dict_get q (files w).
Proof.
  intros H1 H2. unfold resolve_one, has_merge_conflicts_file.
  destruct (dict_get p (files w)) as [c|]; [|reflexivity].
  destruct (io_fails (Read p)); [reflexivity|].
  destruct (has_merge_conflicts c); [|reflexivity].
  destruct (contains START_MARK _); [reflexivity|]. destruct dry_run; [reflexivity|].
  destruct (io_fails (Rename _ _)); [reflexivity|].
  destruct (write_left p _) as [[t|]|]; simpl;
    rewrite ?dict_get_set, dict_get_remove, !str_eqb_neq by assumption; reflexivity.
Qed.

Lemma resolve_one_grows (dry_run : bool) (p : str) (w w' : world) (r r' : list str) :
  resolve_one set_iter io_fails write_left dry_run p w r = (w', Some r') ->
  r' = r \/ r' = r ++ [p].
Proof.
  unfold resolve_one, has_merge_conflicts_file.
  destruct (dict_get p (files w)) as [c|]; [|intros H; injection H; auto].
  destruct (io_fails (Read p)); [discriminate|].
  destruct (has_merge_conflicts c); [|intros H; injection H; auto].
  destruct (contains START_MARK _); [intros H; injection H; auto|].
  destruct dry_run; [intros H; injection H; auto|].
  destruct (io_fails (Rename _ _)); [intros H; injection H; auto|].
  destruct (write_left p _) as [[t|]|]; intros H; injection H; auto.
Qed.

Lemma resolve_loop_commands (dry_run : bool) (ps : list str) (w : world) (r : list str) :
  commands (fst (resolve_loop set_iter io_fails write_left dry_run ps w r)) = commands w.
Proof.
  revert w r. induction ps as [|p ps IH]; intros w r; simpl; [reflexivity|].
  pose proof (resolve_one_commands dry_run p w r) as Hc.
  destruct (resolve_one set_iter io_fails write_left dry_run p w r) as [w' [r'|]]; simpl in *.
  - rewrite IH. exact Hc.
  - exact Hc.
Qed.

Lemma resolve_loop_dry (ps : list str) (w : world) (r : list str) :
  fst (resolve_loop set_iter io_fails write_left true ps w r) = w.
Proof.
  revert w r. induction ps as [|p ps IH]; intros w r; simpl; [reflexivity|].
  pose proof (resolve_one_dry p w r) as Hc.
  destruct (resolve_one set_iter io_fails write_left true p w r) as [w' [r'|]];
    simpl in *; subst; auto.
Qed.

Lemma resolve_loop_sub (dry_run : bool) (ps : list str) (w : world) (r r' : list str) :
  snd (resolve_loop set_iter io_fails write_left dry_run ps w r) = Some r' ->
  forall x, In x r' -> In x r \/ In x ps.
Proof.
  revert w r. induction ps as [|p ps IH]; intros w r; simpl.
  - intros H. injection H as ->. auto.
  - destruct (resolve_one set_iter io_fails write_left dry_run p w r) as [w1 [r1|]] eqn:E;
      [|discriminate].
    intros H x Hx. destruct (IH _ _ H x Hx) as [Hr|Hr]; [|auto].
    destruct (resolve_one_grows _ _ _ _ _ _ E) as [-> | ->]; [auto|].
    apply in_app_or in Hr as [Hr|[<-|[]]]; auto.
Qed.

End DriverFacts.

(** ** [run_command] and [resolve_all_conflicts] *)

Lemma run_command_log (sp : str -> list str -> list (str * str) -> proc_result * list (str * str))
    (d : str) (cmd : list str) (w : world) :
  commands (snd (run_command sp d cmd w))
  = commands w ++ [{| cwd := d; argv := cmd; tree := files w;
                      returned := fst (run_command sp d cmd w) |}].
Proof. unfold run_command. destruct (sp d cmd (files w)) as [[o|e| |] fs]; reflexivity. Qed.

Lemma select_conflicted_none (lines : list str) :
  List.filter is_conflict_line lines = [] -> select_conflicted lines = Some [].
Proof.
  induction lines as [|line lines IH]; simpl; [reflexivity|].
  destruct (is_conflict_line line); [discriminate|exact IH].
Qed.

(** If [git status] fails, [resolve_all_conflicts] returns [False]: the
    world is the one [git status] left, no other command runs and no
    file is touched by the resolver itself. *)
Theorem resolve_all_status_fails (it : list str -> list str)
    (sp : str -> list str -> list (str * str) -> proc_result * list (str * str))
    (io : io_call -> bool) (wl : str -> str -> option (option str)) (dry_run : bool)
    (w w1 : world) (out : str) :
  run_command sp REPO git_status_cmd w = (Some (false, out), w1) ->
  resolve_all_conflicts it sp io wl dry_run w = (w1, Some false).
Proof. intros H. unfold resolve_all_conflicts. rewrite H. reflexivity. Qed.

(** If no line of the [git status] output is selected, it returns [True]
    with the world [git status] left: no other command, no file written. *)
Theorem resolve_all_no_conflicts (it : list str -> list str)
    (sp : str -> list str -> list (str * str) -> proc_result * list (str * str))
    (io : io_call -> bool) (wl : str -> str -> option (option str)) (dry_run : bool)
    (w w1 : world) (out : str) :
  run_command sp REPO git_status_cmd w = (Some (true, out), w1) ->
  List.filter is_conflict_line (split_nl out) = [] ->
  resolve_all_conflicts it sp io wl dry_run w = (w1, Some true).
Proof.
  intros H1 H2. unfold resolve_all_conflicts. rewrite H1.
  cbn [negb]. cbv beta iota. rewrite select_conflicted_none by exact H2. reflexivity.
Qed.

(** A dry run ends in the world [git status] left: the resolver writes,
    renames and deletes nothing and runs neither [protoc] nor
    [git add]. *)
Theorem resolve_all_dry_run (it : list str -> list str)
    (sp : str -> list str -> list (str * str) -> proc_result * list (str * str))
    (io : io_call -> bool) (wl : str -> str -> option (option str)) (w : world) :
  fst (resolve_all_conflicts it sp io wl true w) = snd (run_command sp REPO git_status_cmd w).
Proof.
  unfold resolve_all_conflicts.
  destruct (run_command sp REPO git_status_cmd w) as [[[ok out]|] w1]; [|reflexivity].
  destruct ok; [|reflexivity]. cbn [negb]. cbv beta iota.
  destruct (select_conflicted (split_nl out)) as [[|p ps]|]; try reflexivity.
  pose proof (resolve_loop_dry it io wl (p :: ps) w1 []) as Hd.
  destruct (resolve_loop it io wl true (p :: ps) w1 []) as [w2 [rs|]]; simpl in Hd; subst w2;
    [|reflexivity].
  rewrite andb_false_r. cbv beta iota. rewrite andb_false_r. reflexivity.
Qed.

(** When it returns, [resolve_all_conflicts] returns [True] exactly when
    every command it ran ([git status], then possibly [protoc] and
    [git add]) exited successfully. *)
Theorem resolve_all_result (it : list str -> list str)
    (sp : str -> list str -> list (str * str) -> proc_result * list (str * str))
    (io : io_call -> bool) (wl : str -> str -> option (option str)) (dry_run : bool)
    (w : world) (b : bool) :
  snd (resolve_all_conflicts it sp io wl dry_run w) = Some b ->
  exists cmds, commands (fst (resolve_all_conflicts it sp io wl dry_run w)) = commands w ++ cmds
  /\ (b = true <-> Forall (fun c => exists o, returned c = Some (true, o)) cmds).
Proof.
  unfold resolve_all_conflicts.
  pose proof (run_command_log sp REPO git_status_cmd w) as Hl1.
  destruct (run_command sp REPO git_status_cmd w) as [o1 w1]. simpl in Hl1.
  destruct o1 as [[ok out]|]; [|discriminate].
  set (c1 := {| cwd := REPO; argv := git_status_cmd; tree := files w; returned := Some (ok, out) |})
    in Hl1.
  destruct ok.
  2:{ intros H. injection H as <-. exists [c1]. split; [exact Hl1|].
      split; [discriminate|]. intros Hf. inversion Hf as [|x l [o Ho]]. simpl in Ho. congruence. }
  assert (Hf1 : Forall (fun c => exists o, returned c = Some (true, o)) [c1])
    by (constructor; [exists out; reflexivity|constructor]).
  cbn [negb]. cbv beta iota.
  destruct (select_conflicted (split_nl out)) as [[|p ps]|]; [| |discriminate].
  { intros H. injection H as <-. exists [c1]. split; [exact Hl1|]. split; auto. }
  pose proof (resolve_loop_commands it io wl dry_run (p :: ps) w1 []) as Hc.
  destruct (resolve_loop it io wl dry_run (p :: ps) w1 []) as [w2 [rs|]];
    simpl in Hc; [|discriminate].
  assert (Hadd : forall w3 cmds0,
    Forall (fun c => exists o, returned c = Some (true, o)) cmds0 ->
    commands w3 = commands w ++ cmds0 ->
    snd (if match rs with [] => false | _ => true end && negb dry_run then
           match run_command sp REPO (git_add_cmd rs) w3 with
           | (Some (success', _), w4) => (w4, Some success')
           | (None, w4) => (w4, None)
           end
         else (w3, Some true)) = Some b ->
    exists cmds, commands (fst (if match rs with [] => false | _ => true end && negb dry_run then
           match run_command sp REPO (git_add_cmd rs) w3 with
           | (Some (success', _), w4) => (w4, Some success')
           | (None, w4) => (w4, None)
           end
         else (w3, Some true))) = commands w ++ cmds
    /\ (b = true <-> Forall (fun c => exists o, returned c = Some (true, o)) cmds)).
  { intros w3 cmds0 Hf0 Hc3.
    destruct (match rs with [] => false | _ => true end && negb dry_run).
    - pose proof (run_command_log sp REPO (git_add_cmd rs) w3) as Hl3.
      destruct (run_command sp REPO (git_add_cmd rs) w3) as [[[ok3 o3]|] w4]; simpl in Hl3 |- *;
        [|discriminate].
      intros H. injection H as <-.
      eexists. split; [rewrite Hl3, Hc3, <- app_assoc; reflexivity|].
      rewrite List.Forall_app. split.
      + intros ->. split; [exact Hf0|constructor; [exists o3; reflexivity|constructor]].
      + intros [_ Hf]. inversion Hf as [|x l [o Ho]]. simpl in Ho. congruence.
    - simpl. intros H. injection H as <-. exists cmds0. split; [exact Hc3|]. split; auto. }
  destruct (existsb _ rs && negb dry_run).
  - unfold regenerate_pb_go.
    pose proof (run_command_log sp PROTO_DIR protoc_cmd w2) as Hl2.
    destruct (run_command sp PROTO_DIR protoc_cmd w2) as [o2 w3]. simpl in Hl2.
    destruct o2 as [[ok2 out2]|]; cbn [option_map fst]; [|discriminate].
    set (c2 := {| cwd := PROTO_DIR; argv := protoc_cmd; tree := files w2;
                  returned := Some (ok2, out2) |}) in Hl2.
    destruct ok2.
    + apply (Hadd w3 [c1; c2]).
      * constructor; [exists out; reflexivity|constructor; [exists out2; reflexivity|constructor]].
      * rewrite Hl2, Hc, Hl1, <- app_assoc. reflexivity.
    + simpl. intros H. injection H as <-. exists [c1; c2].
      rewrite Hl2, Hc, Hl1, <- app_assoc. split; [reflexivity|].
      split; [discriminate|]. intros Hf. inversion Hf as [|x l _ Hf'].
      inversion Hf' as [|y l' [o Ho]]. simpl in Ho. congruence.
  - cbv beta iota. apply (Hadd w2 [c1] Hf1). rewrite Hc. exact Hl1.
Qed.

Lemma backup_path_neq (p : str) : p <> backup_path p.
Proof.
  unfold backup_path. intros H. apply (f_equal (@length ascii)) in H.
  rewrite length_app in H. simpl in H. lia.
Qed.

(** One listed file with markers, which its strategy resolves, with no
    failing file operation and no dry run: the commands after
    [git status] run on the files [git status] left, with the listed
    file holding the resolved text and its [.backup] the original.  They
    are [protoc] (only for a file named [scan_result.proto]) and, unless
    [protoc] did not succeed, [git add] of the file; the value returned
    is the success of the last of them, or an exception if it raised. *)
Theorem resolve_all_single_file (it : list str -> list str)
    (sp : str -> list str -> list (str * str) -> proc_result * list (str * str))
    (io : io_call -> bool) (wl : str -> str -> option (option str))
    (w w1 : world) (p out c : str) :
  run_command sp REPO git_status_cmd w = (Some (true, out), w1) ->
  select_conflicted (split_nl out) = Some [p] ->
  dict_get p (files w1) = Some c -> has_merge_conflicts c = true ->
  io (Read p) = false -> io (Rename p (backup_path p)) = false ->
  wl p (apply_strategy it (strategy_of (path_name p)) c) = None ->
  contains START_MARK (apply_strategy it (strategy_of (path_name p)) c) = false ->
  let w2 := {| files := dict_set p (apply_strategy it (strategy_of (path_name p)) c)
                          (dict_set (backup_path p) c (dict_remove p (files w1)));
               commands := commands w1 |} in
  resolve_all_conflicts it sp io wl false w
  = if str_eqb (path_name p) (L "scan_result.proto") then
      match run_command sp PROTO_DIR protoc_cmd w2 with
      | (Some (true, _), w3) =>
          let '(result, w4) := run_command sp REPO (git_add_cmd [p]) w3 in
          (w4, option_map fst result)
      | (result, w3) => (w3, option_map fst result)
      end
    else
      let '(result, w3) := run_command sp REPO (git_add_cmd [p]) w2 in
      (w3, option_map fst result).
Proof.
  intros Hst Hs Hc Hm Hr Hn Hw Hres w2. subst w2.
  unfold resolve_all_conflicts. rewrite Hst. cbn [negb]. cbv beta iota. rewrite Hs.
  cbn [resolve_loop]. unfold resolve_one, has_merge_conflicts_file.
  rewrite Hc, Hr, Hm. cbv beta iota. rewrite Hres, Hn, Hw. cbv beta iota.
  cbn [existsb app]. rewrite orb_false_r.
  destruct (str_eqb (path_name p) (L "scan_result.proto")); cbn [andb negb]; cbv beta iota.
  - unfold regenerate_pb_go.
    set (w2 := {| files := _; commands := commands w1 |}).
    destruct (run_command sp PROTO_DIR protoc_cmd w2) as [[[[|] o]|] w3]; cbv beta iota;
      cbn [option_map fst andb negb]; cbv beta iota; [|reflexivity|reflexivity].
    destruct (run_command sp REPO (git_add_cmd [p]) w3) as [[[ok o']|] w4]; reflexivity.
  - set (w2 := {| files := _; commands := commands w1 |}).
    destruct (run_command sp REPO (git_add_cmd [p]) w2) as [[[ok o']|] w3]; reflexivity.
Qed.

(** One listed file with markers whose strategy resolves it, but whose
    [write_text] raises after the rename: the file is left absent or with
    what the failed write put there, its [.backup] holds the original,
    nothing is staged, and [True] is returned. *)
Theorem resolve_all_write_fails (it : list str -> list str)
    (sp : str -> list str -> list (str * str) -> proc_result * list (str * str))
    (io : io_call -> bool) (wl : str -> str -> option (option str))
    (w w1 : world) (p out c : str) (leftover : option str) :
  run_command sp REPO git_status_cmd w = (Some (true, out), w1) ->
  select_conflicted (split_nl out) = Some [p] ->
  dict_get p (files w1) = Some c -> has_merge_conflicts c = true ->
  io (Read p) = false -> io (Rename p (backup_path p)) = false ->
  wl p (apply_strategy it (strategy_of (path_name p)) c) = Some leftover ->
  contains START_MARK (apply_strategy it (strategy_of (path_name p)) c) = false ->
  resolve_all_conflicts it sp io wl false w
  = ({| files := match leftover with
                 | None => dict_set (backup_path p) c (dict_remove p (files w1))
                 | Some text => dict_set p text (dict_set (backup_path p) c (dict_remove p (files w1)))
                 end;
        commands := commands w1 |}, Some true).
Proof.
  intros Hst Hs Hc Hm Hr Hn Hw Hres.
  unfold resolve_all_conflicts. rewrite Hst. cbn [negb]. cbv beta iota. rewrite Hs.
  cbn [resolve_loop]. unfold resolve_one, has_merge_conflicts_file.
  rewrite Hc, Hr, Hm. cbv beta iota. rewrite Hres, Hn, Hw. cbv beta iota.
  cbn [existsb orb andb negb]. cbv beta iota. reflexivity.
Qed.

(** One listed file with markers that its strategy leaves with a
    [<<<<<<< ]: the world stays as [git status] left it, nothing is
    staged, and [True] is returned. *)
Theorem resolve_all_unresolved (it : list str -> list str)
    (sp : str -> list str -> list (str * str) -> proc_result * list (str * str))
    (io : io_call -> bool) (wl : str -> str -> option (option str)) (dry_run : bool)
    (w w1 : world) (p out c : str) :
  run_command sp REPO git_status_cmd w = (Some (true, out), w1) ->
  select_conflicted (split_nl out) = Some [p] ->
  dict_get p (files w1) = Some c -> has_merge_conflicts c = true -> io (Read p) = false ->
  contains START_MARK (apply_strategy it (strategy_of (path_name p)) c) = true ->
  resolve_all_conflicts it sp io wl dry_run w = (w1, Some true).
Proof.
  intros Hst Hs Hc Hm Hr Hres.
  unfold resolve_all_conflicts. rewrite Hst. cbn [negb]. cbv beta iota. rewrite Hs.
  cbn [resolve_loop]. unfold resolve_one, has_merge_conflicts_file.
  rewrite Hc, Hr, Hm. cbv beta iota. rewrite Hres. cbv beta iota.
  cbn [existsb orb andb negb]. cbv beta iota. reflexivity.
Qed.

(** A listed path that does not exist counts as resolved: with no dry
    run and a name other than [scan_result.proto], [git add] of it runs
    next on the files [git status] left, and its success is returned. *)
Theorem resolve_all_missing_file (it : list str -> list str)
    (sp : str -> list str -> list (str * str) -> proc_result * list (str * str))
    (io : io_call -> bool) (wl : str -> str -> option (option str))
    (w w1 : world) (p out : str) :
  run_command sp REPO git_status_cmd w = (Some (true, out), w1) ->
  select_conflicted (split_nl out) = Some [p] ->
  dict_get p (files w1) = None ->
  str_eqb (path_name p) (L "scan_result.proto") = false ->
  resolve_all_conflicts it sp io wl false w
  = let '(result, w2) := run_command sp REPO (git_add_cmd [p]) w1 in
    (w2, option_map fst result).
Proof.
  intros Hst Hs Hc Hn.
  unfold resolve_all_conflicts. rewrite Hst. cbn [negb]. cbv beta iota. rewrite Hs.
  cbn [resolve_loop]. unfold resolve_one, has_merge_conflicts_file.
  rewrite Hc. cbv beta iota. cbn [existsb app]. rewrite Hn.
  cbn [orb andb negb]. cbv beta iota.
  destruct (run_command sp REPO (git_add_cmd [p]) w1) as [[[ok o]|] w2]; reflexivity.
Qed.

(** ** What [git add] receives *)

Section Staging.
Variable set_iter : list str -> list str.
Variable io_fails : io_call -> bool.
Variable write_left : str -> str -> option (option str).

Lemma str_eqb_neq_inv (a b : str) : str_eqb a b = false -> a <> b.
Proof. intros H ->. rewrite str_eqb_refl in H. discriminate. Qed.

Lemma resolve_one_clean_same (dry_run : bool) (p : str) (w : world) (r : list str) :
  clean_at (files w) p -> fst (resolve_one set_iter io_fails write_left dry_run p w r) = w.
Proof.
  unfold clean_at, resolve_one, has_merge_conflicts_file.
  destruct (dict_get p (files w)) as [c|]; [|reflexivity]. intros Hc.
  destruct (io_fails (Read p)); [reflexivity|]. rewrite Hc. reflexivity.
Qed.

Lemma resolve_one_added (p : str) (w w' : world) (r : list str) :
  resolve_one set_iter io_fails write_left false p w r = (w', Some (r ++ [p])) ->
  clean_at (files w') p.
Proof.
  assert (Hne : r <> r ++ [p]).
  { intros H. apply (f_equal (@length str)) in H. rewrite length_app in H. simpl in H. lia. }
  unfold resolve_one, has_merge_conflicts_file.
  destruct (dict_get p (files w)) as [c|] eqn:Ec.
  2:{ intros H. injection H as <-. unfold clean_at. rewrite Ec. exact I. }
  destruct (io_fails (Read p)); [discriminate|].
  destruct (has_merge_conflicts c) eqn:Em.
  2:{ intros H. injection H as <-. unfold clean_at. rewrite Ec. exact Em. }
  destruct (contains START_MARK _) eqn:Es; [intros H; injection H as _ H; congruence|].
  destruct (io_fails (Rename _ _)); [intros H; injection H as _ H; congruence|].
  destruct (write_left p _) as [[t|]|]; [intros H; injection H as _ H; congruence
                                        |intros H; injection H as _ H; congruence|].
  intros H. injection H as <-. unfold clean_at. cbn [files].
  rewrite dict_get_set, str_eqb_refl. unfold has_merge_conflicts. rewrite Es. reflexivity.
Qed.

Lemma resolve_one_clean (p : str) (w w' : world) (r r' : list str) :
  (forall x, In x r -> x <> backup_path p) ->
  (forall x, In x r -> clean_at (files w) x) ->
  resolve_one set_iter io_fails write_left false p w r = (w', Some r') ->
  forall x, In x r' -> clean_at (files w') x.
Proof.
  intros Hb Hi H.
  assert (Hsame : clean_at (files w) p -> w' = w).
  { intros Hc. pose proof (resolve_one_clean_same false p w r Hc) as E. rewrite H in E. exact E. }
  assert (Hold : forall x, In x r -> clean_at (files w') x).
  { intros x Hx. destruct (str_eqb x p) eqn:E.
    - apply str_eqb_true in E. subst x. rewrite (Hsame (Hi p Hx)). exact (Hi p Hx).
    - apply str_eqb_neq_inv in E.
      pose proof (resolve_one_other set_iter io_fails write_left false p x w r E (Hb x Hx)) as Ho.
      rewrite H in Ho. unfold clean_at. simpl in Ho. rewrite Ho. exact (Hi x Hx). }
  destruct (resolve_one_grows set_iter io_fails write_left false p w w' r r' H) as [-> | ->];
    [exact Hold|].
  intros x Hx. apply in_app_or in Hx as [Hx|[<-|[]]]; [exact (Hold x Hx)|].
  exact (resolve_one_added p w w' r H).
Qed.

Lemma resolve_loop_clean (ps : list str) (w : world) (r r' : list str) :
  (forall x q, (In x r \/ In x ps) -> In q ps -> x <> backup_path q) ->
  (forall x, In x r -> clean_at (files w) x) ->
  snd (resolve_loop set_iter io_fails write_left false ps w r) = Some r' ->
  forall x, In x r' -> clean_at (files (fst (resolve_loop set_iter io_fails write_left false ps w r))) x.
Proof.
  revert w r. induction ps as [|p ps IH]; intros w r Hb Hi; simpl.
  - intros H. injection H as <-. exact Hi.
  - destruct (resolve_one set_iter io_fails write_left false p w r) as [w1 [r1|]] eqn:E;
      [|discriminate].
    apply IH.
    + intros x q Hx Hq. destruct (resolve_one_grows _ _ _ _ _ _ _ _ _ E) as [-> | ->].
      * apply Hb; simpl; tauto.
      * destruct Hx as [Hx|Hx]; [apply in_app_or in Hx as [Hx|[<-|[]]]|]; apply Hb; simpl; tauto.
    + apply (resolve_one_clean p w w1 r r1); [|exact Hi|exact E].
      intros x Hx. apply Hb; simpl; tauto.
Qed.

End Staging.

Lemma git_add_not_protoc (args : list str) : git_add_cmd args <> protoc_cmd.
Proof. intros H. injection H as H. discriminate H. Qed.

Lemma clean_at_same (fs fs' : list (str * str)) (p : str) :
  dict_get p fs' = dict_get p fs -> clean_at fs p -> clean_at fs' p.
Proof. unfold clean_at. intros ->. exact (fun H => H). Qed.

(** With no listed path being the [.backup] of a listed path, and a
    [protoc] that leaves the listed paths as they are, every path given
    to [git add] is, in the files [git add] runs on, absent or without
    the three markers: nothing is staged with a conflict in it. *)
Theorem resolve_all_staged_clean (it : list str -> list str)
    (sp : str -> list str -> list (str * str) -> proc_result * list (str * str))
    (io : io_call -> bool) (wl : str -> str -> option (option str))
    (w w1 : world) (out : str) (ps : list str) :
  run_command sp REPO git_status_cmd w = (Some (true, out), w1) ->
  select_conflicted (split_nl out) = Some ps ->
  (forall p q, In p ps -> In q ps -> p <> backup_path q) ->
  (forall fs q, In q ps -> dict_get q (snd (sp PROTO_DIR protoc_cmd fs)) = dict_get q fs) ->
  exists cmds, commands (fst (resolve_all_conflicts it sp io wl false w)) = commands w1 ++ cmds
  /\ forall c args, In c cmds -> argv c = git_add_cmd args ->
     forall p, In p args -> clean_at (tree c) p.
Proof.
  intros Hst Hs Hb Hpr. unfold resolve_all_conflicts. rewrite Hst. cbn [negb]. cbv beta iota.
  rewrite Hs.
  destruct ps as [|p0 ps]; [exists []; split; [rewrite app_nil_r; reflexivity|intros c args []]|].
  pose proof (resolve_loop_commands it io wl false (p0 :: ps) w1 []) as Hc.
  assert (Hb1 : forall x q, In x [] \/ In x (p0 :: ps) -> In q (p0 :: ps) -> x <> backup_path q)
    by (intros x q [[]|Hx] Hq; exact (Hb x q Hx Hq)).
  assert (Hi1 : forall x, In x [] -> clean_at (files w1) x) by (intros _ []).
  pose proof (fun r' => resolve_loop_clean it io wl (p0 :: ps) w1 [] r' Hb1 Hi1) as Hcl.
  pose proof (fun r' => resolve_loop_sub it io wl false (p0 :: ps) w1 [] r') as Hsub.
  destruct (resolve_loop it io wl false (p0 :: ps) w1 []) as [w2 [rs|]]; simpl in Hc, Hcl, Hsub;
    [|exists []; split; [cbn [fst]; rewrite Hc, app_nil_r; reflexivity|intros c args []]].
  specialize (Hcl rs eq_refl). specialize (Hsub rs eq_refl).
  assert (Hin : forall x, In x rs -> In x (p0 :: ps)) by (intros x Hx; destruct (Hsub x Hx) as [[]|H]; exact H).
  assert (Hadd : forall w3 c0, (forall x, In x rs -> clean_at (files w3) x) ->
      commands w3 = commands w1 ++ c0 ->
      (forall c args, In c c0 -> argv c = git_add_cmd args -> False) ->
      exists cmds, commands (fst (if match rs with [] => false | _ => true end && true then
           match run_command sp REPO (git_add_cmd rs) w3 with
           | (Some (success', _), w4) => (w4, Some success')
           | (None, w4) => (w4, None)
           end
         else (w3, Some true))) = commands w1 ++ cmds
      /\ forall c args, In c cmds -> argv c = git_add_cmd args ->
         forall p, In p args -> clean_at (tree c) p).
  { intros w3 c0 Hcl3 Hc3 Hn.
    destruct (match rs with [] => false | _ => true end && true).
    - pose proof (run_command_log sp REPO (git_add_cmd rs) w3) as Hl3.
      assert (Hl3' : commands (snd (run_command sp REPO (git_add_cmd rs) w3))
                     = commands w1 ++ c0 ++ [{| cwd := REPO; argv := git_add_cmd rs; tree := files w3;
                                                returned := fst (run_command sp REPO (git_add_cmd rs) w3) |}])
        by (rewrite Hl3, Hc3, <- app_assoc; reflexivity).
      destruct (run_command sp REPO (git_add_cmd rs) w3) as [[[ok3 o3]|] w4]; simpl in Hl3' |- *;
        (eexists; split; [exact Hl3'|]);
        intros c args Hc' Ha p Hp; apply in_app_or in Hc' as [Hc'|[<-|[]]];
        try (exfalso; exact (Hn c args Hc' Ha));
        simpl in Ha; unfold git_add_cmd in Ha; apply app_inv_head in Ha; subst args;
        exact (Hcl3 p Hp).
    - exists c0. split; [exact Hc3|]. intros c args Hc' Ha. exfalso. exact (Hn c args Hc' Ha). }
  destruct (existsb _ rs && true).
  - unfold regenerate_pb_go.
    pose proof (run_command_log sp PROTO_DIR protoc_cmd w2) as Hl2.
    assert (Hf3 : forall x, In x rs -> clean_at (files (snd (run_command sp PROTO_DIR protoc_cmd w2))) x).
    { intros x Hx. apply (clean_at_same (files w2)); [|exact (Hcl x Hx)].
      unfold run_command. destruct (sp PROTO_DIR protoc_cmd (files w2)) as [r fs] eqn:Ep.
      pose proof (Hpr (files w2) x (Hin x Hx)) as Hq. rewrite Ep in Hq.
      destruct r; exact Hq. }
    destruct (run_command sp PROTO_DIR protoc_cmd w2) as [o2 w3]. simpl in Hl2, Hf3.
    assert (Hn : forall c args, In c [{| cwd := PROTO_DIR; argv := protoc_cmd; tree := files w2;
                                         returned := o2 |}] -> argv c = git_add_cmd args -> False).
    { intros c args [<-|[]] Ha. simpl in Ha. exact (git_add_not_protoc args (eq_sym Ha)). }
    destruct o2 as [[[|] out2]|]; cbn [option_map fst]; cbv beta iota.
    + eapply (Hadd w3 _ Hf3); [rewrite Hl2, Hc; reflexivity|exact Hn].
    + eexists. split; [rewrite Hl2, Hc; reflexivity|].
      intros c args Hc' Ha. exfalso. exact (Hn c args Hc' Ha).
    + eexists. split; [rewrite Hl2, Hc; reflexivity|].
      intros c args Hc' Ha. exfalso. exact (Hn c args Hc' Ha).
  - cbv beta iota. apply (Hadd w2 [] Hcl); [rewrite Hc, app_nil_r; reflexivity|intros c args []].
Qed.

(** ** Instances of the statements about the driver *)

Lemma resolve_all_status_fails_witness :
  run_command (sample_run false) REPO git_status_cmd sample_world
  = (Some (false, L "UU a.txt"),
     {| files := files sample_world;
        commands := [{| cwd := REPO; argv := git_status_cmd; tree := files sample_world;
                        returned := Some (false, L "UU a.txt") |}] |})
  /\ resolve_all_conflicts insertion_order (sample_run false) no_io_failure write_ok false
       sample_world
     = ({| files := files sample_world;
           commands := [{| cwd := REPO; argv := git_status_cmd; tree := files sample_world;
                           returned := Some (false, L "UU a.txt") |}] |}, Some false).
Proof.
  assert (H : run_command (sample_run false) REPO git_status_cmd sample_world
              = (Some (false, L "UU a.txt"),
                 {| files := files sample_world;
                    commands := [{| cwd := REPO; argv := git_status_cmd; tree := files sample_world;
                                    returned := Some (false, L "UU a.txt") |}] |}))
    by reflexivity.
  split; [exact H|]. exact (resolve_all_status_fails _ _ _ _ _ _ _ _ H).
Defined.

Lemma resolve_all_no_conflicts_witness :
  resolve_all_conflicts insertion_order (fun _ _ fs => (Completed (L " M b.txt"), fs))
    no_io_failure write_ok false sample_world
  = ({| files := files sample_world;
        commands := [{| cwd := REPO; argv := git_status_cmd; tree := files sample_world;
                        returned := Some (true, L " M b.txt") |}] |}, Some true).
Proof. apply (resolve_all_no_conflicts _ _ _ _ _ _ _ (L " M b.txt")); reflexivity. Defined.

Lemma resolve_all_result_witness :
  exists cmds,
    commands (fst (resolve_all_conflicts insertion_order (sample_run true) no_io_failure write_ok
                     false sample_world)) = commands sample_world ++ cmds
    /\ (true = true <-> Forall (fun c => exists o, returned c = Some (true, o)) cmds).
Proof. apply resolve_all_result. reflexivity. Defined.

Lemma resolve_all_single_file_witness :
  resolve_all_conflicts insertion_order (sample_run true) no_io_failure write_ok false sample_world
  = let w2 := {| files := dict_set (L "a.txt")
                            (apply_strategy insertion_order (strategy_of (path_name (L "a.txt")))
                               sample_text)
                            (dict_set (backup_path (L "a.txt")) sample_text
                               (dict_remove (L "a.txt") (files sample_world)));
                 commands := [{| cwd := REPO; argv := git_status_cmd; tree := files sample_world;
                                 returned := Some (true, L "UU a.txt") |}] |} in
    if str_eqb (path_name (L "a.txt")) (L "scan_result.proto") then
      match run_command (sample_run true) PROTO_DIR protoc_cmd w2 with
      | (Some (true, _), w3) =>
          let '(result, w4) := run_command (sample_run true) REPO (git_add_cmd [L "a.txt"]) w3 in
          (w4, option_map fst result)
      | (result, w3) => (w3, option_map fst result)
      end
    else
      let '(result, w3) := run_command (sample_run true) REPO (git_add_cmd [L "a.txt"]) w2 in
      (w3, option_map fst result).
Proof.
  refine (resolve_all_single_file insertion_order (sample_run true) no_io_failure write_ok
            sample_world
            {| files := files sample_world;
               commands := [{| cwd := REPO; argv := git_status_cmd; tree := files sample_world;
                               returned := Some (true, L "UU a.txt") |}] |}
            (L "a.txt") (L "UU a.txt") sample_text _ _ _ _ _ _ _ _); vm_compute; reflexivity.
Defined.

Lemma resolve_all_write_fails_witness :
  resolve_all_conflicts insertion_order (sample_run true) no_io_failure write_truncates false
    sample_world
  = ({| files := dict_set (L "a.txt") []
                   (dict_set (backup_path (L "a.txt")) sample_text
                      (dict_remove (L "a.txt") (files sample_world)));
        commands := [{| cwd := REPO; argv := git_status_cmd; tree := files sample_world;
                        returned := Some (true, L "UU a.txt") |}] |}, Some true).
Proof.
  apply (resolve_all_write_fails _ _ _ _ _
           {| files := files sample_world;
              commands := [{| cwd := REPO; argv := git_status_cmd; tree := files sample_world;
                              returned := Some (true, L "UU a.txt") |}] |}
           (L "a.txt") (L "UU a.txt") sample_text (Some [])); vm_compute; reflexivity.
Defined.

Lemma resolve_all_unresolved_witness :
  resolve_all_conflicts insertion_order (sample_run true) no_io_failure write_ok false
    {| files := [(L "a.txt", sample_text ++ [nl] ++ START_MARK)]; commands := [] |}
  = ({| files := [(L "a.txt", sample_text ++ [nl] ++ START_MARK)];
        commands := [{| cwd := REPO; argv := git_status_cmd;
                        tree := [(L "a.txt", sample_text ++ [nl] ++ START_MARK)];
                        returned := Some (true, L "UU a.txt") |}] |}, Some true).
Proof.
  apply (resolve_all_unresolved _ _ _ _ _ _ _ (L "a.txt") (L "UU a.txt")
           (sample_text ++ [nl] ++ START_MARK)); vm_compute; reflexivity.
Defined.

Lemma resolve_all_missing_file_witness :
  resolve_all_conflicts insertion_order (sample_run true) no_io_failure write_ok false
    {| files := []; commands := [] |}
  = let '(result, w2) :=
      run_command (sample_run true) REPO (git_add_cmd [L "a.txt"])
        {| files := [];
           commands := [{| cwd := REPO; argv := git_status_cmd; tree := [];
                           returned := Some (true, L "UU a.txt") |}] |} in
    (w2, option_map fst result).
Proof.
  apply (resolve_all_missing_file _ _ _ _ _ _ (L "a.txt") (L "UU a.txt")); reflexivity.
Defined.

Lemma resolve_all_staged_clean_witness :
  exists cmds,
    commands (fst (resolve_all_conflicts insertion_order (sample_run true) no_io_failure write_ok
                     false sample_world))
    = [{| cwd := REPO; argv := git_status_cmd; tree := files sample_world;
          returned := Some (true, L "UU a.txt") |}] ++ cmds
    /\ forall c args, In c cmds -> argv c = git_add_cmd args ->
       forall p, In p args -> clean_at (tree c) p.
Proof.
  apply (resolve_all_staged_clean insertion_order (sample_run true) no_io_failure write_ok
           sample_world
           {| files := files sample_world;
              commands := [{| cwd := REPO; argv := git_status_cmd; tree := files sample_world;
                              returned := Some (true, L "UU a.txt") |}] |}
           (L "UU a.txt") [L "a.txt"]).
  - reflexivity.
  - reflexivity.
  - intros p q [<-|[]] [<-|[]]. apply backup_path_neq.
  - intros fs q _. reflexivity.
Defined.

(** ** Single-line imports *)

Lemma word_not_dquote (c : ascii) : is_word c = true -> c <> dquote.
Proof. intros H ->. discriminate H. Qed.

Lemma lstrip_cons (c : ascii) (s : str) : is_space c = false -> lstrip (c :: s) = c :: s.
Proof. intros H. unfold lstrip. simpl. rewrite H. reflexivity. Qed.

Lemma import_line_shape (x : str) :
  L "import " ++ x = "i"%char :: (L "mport" ++ " "%char :: x)
  /\ L "import " ++ x = L "import" ++ " "%char :: x.
Proof. split; reflexivity. Qed.

Lemma import_lstrip (x : str) : drop_while is_space (L "import " ++ x) = L "import " ++ x.
Proof. reflexivity. Qed.

Lemma quoted_path_import (x : str) : quoted_path (L "import " ++ x) = None.
Proof. reflexivity. Qed.

Lemma word_all_import : forall c, In c (L "import") -> is_word c = true.
Proof. intros c Hc. repeat (destruct Hc as [<-|Hc]; [reflexivity|]). destruct Hc. Qed.

Lemma import_strip (x : str) : strip (L "import " ++ x ++ [dquote]) = L "import " ++ x ++ [dquote].
Proof.
  unfold strip. rewrite app_assoc, rstrip_snoc by reflexivity. rewrite <- app_assoc.
  rewrite (proj1 (import_line_shape _)). apply lstrip_cons. reflexivity.
Qed.

Lemma import_nl_free (x : str) : ~ In nl x -> ~ In nl (L "import " ++ x).
Proof.
  intros Hx H. apply in_app_or in H as [H|H]; [|exact (Hx H)].
  repeat (destruct H as [H|H]; [discriminate H|]). exact H.
Qed.

Lemma import_step_single (d : ascii) (x : str) :
  ascii_eqb "("%char d = false ->
  strip (L "import " ++ d :: x ++ [dquote]) = L "import " ++ d :: x ++ [dquote] ->
  import_step (false, []) (L "import " ++ d :: x ++ [dquote])
  = (false, add_import (L "import " ++ d :: x ++ [dquote]) []).
Proof.
  intros Hd Hs. unfold import_step. rewrite Hs.
  rewrite (proj1 (import_line_shape _)). rewrite andb_false_r.
  cbn [prefixb L list_ascii_of_string app]. rewrite Hd. reflexivity.
Qed.

Lemma quoted_path_exact (p rest : str) :
  p <> [] -> ~ In dquote p -> quoted_path (dquote :: p ++ dquote :: rest) = Some p.
Proof.
  intros Hp Hq. unfold quoted_path. rewrite ascii_eqb_refl.
  rewrite span_app_stops.
  - destruct p; [congruence|reflexivity].
  - intros c Hc. apply negb_true_iff. destruct (ascii_eqb c dquote) eqn:E; [|reflexivity].
    apply ascii_eqb_true in E. subst. contradiction.
  - reflexivity.
Qed.

(** A Go file whose only line is [import "p"] yields the import [p]; one
    whose only line is [import a "p"], with an alias [a], yields no
    import: in a line starting with [import ], the aliased pattern reads
    the keyword [import] as the alias, so the real alias stops it. *)
Theorem single_line_imports (a p : str) :
  p <> [] -> ~ In dquote p -> ~ In nl p -> word a ->
  extract_import_statements (L "import " ++ [dquote] ++ p ++ [dquote]) = [p]
  /\ extract_import_statements (L "import " ++ a ++ L " " ++ [dquote] ++ p ++ [dquote]) = [].
Proof.
  intros Hp Hq Hn [Ha Hw].
  assert (Hpn : ~ In nl (p ++ [dquote])).
  { intros H. apply in_app_or in H as [H|[H|[]]]; [exact (Hn H)|discriminate H]. }
  split.
  - unfold extract_import_statements.
    rewrite split_nl_free by (apply import_nl_free; intros [H|H]; [discriminate H|exact (Hpn H)]).
    cbn [fold_left]. change ([dquote] ++ p ++ [dquote]) with (dquote :: p ++ [dquote]).
    rewrite import_step_single by (reflexivity || apply (import_strip (dquote :: p))). cbn [snd].
    unfold add_import, match_import, direct_import.
    rewrite import_lstrip, quoted_path_import. unfold aliased_import. rewrite import_lstrip.
    rewrite (proj2 (import_line_shape _)), span_app_stops by (exact word_all_import || reflexivity).
    rewrite span_cons_stops by reflexivity.
    rewrite quoted_path_exact by assumption. reflexivity.
  - destruct a as [|c a']; [congruence|].
    assert (Hc : is_word c = true) by (apply Hw; left; reflexivity).
    assert (Hcp : ascii_eqb "("%char c = false).
    { destruct (ascii_eqb "("%char c) eqn:E; [|reflexivity].
      apply ascii_eqb_true in E. subst c. discriminate Hc. }
    assert (Hwn : ~ In nl ((c :: a') ++ L " " ++ [dquote] ++ p ++ [dquote])).
    { intros H. apply in_app_or in H as [H|H].
      - exact (word_not_nl _ (Hw _ H) eq_refl).
      - destruct H as [H|[H|H]]; [discriminate H|discriminate H|exact (Hpn H)]. }
    unfold extract_import_statements. rewrite split_nl_free by (apply import_nl_free, Hwn).
    cbn [fold_left].
    replace ((c :: a') ++ L " " ++ [dquote] ++ p ++ [dquote])
      with (c :: (a' ++ L " " ++ [dquote] ++ p) ++ [dquote])
      by (cbn [app]; rewrite <- !app_assoc; reflexivity).
    rewrite import_step_single
      by (exact Hcp || apply (import_strip (c :: a' ++ L " " ++ [dquote] ++ p))). cbn [snd].
    unfold add_import, match_import, direct_import.
    rewrite import_lstrip, quoted_path_import. unfold aliased_import. rewrite import_lstrip.
    rewrite (proj2 (import_line_shape _)), span_app_stops by (exact word_all_import || reflexivity).
    rewrite span_cons_stops by (reflexivity || (simpl; apply word_not_space, Hc)).
    cbn [app quoted_path]. destruct (ascii_eqb c dquote) eqn:E; [|reflexivity].
    apply ascii_eqb_true in E. exfalso. exact (word_not_dquote c Hc E).
Qed.

Lemma single_line_imports_witness :
  extract_import_statements (L "import " ++ [dquote] ++ L "fmt" ++ [dquote]) = [L "fmt"]
  /\ extract_import_statements (L "import " ++ L "pb" ++ L " " ++ [dquote] ++ L "fmt" ++ [dquote]) = [].
Proof.
  apply single_line_imports.
  - discriminate.
  - cbv. intuition discriminate.
  - cbv. intuition discriminate.
  - split; [discriminate|]. intros c Hc. repeat (destruct Hc as [<-|Hc]; [reflexivity|]). destruct Hc.
Defined.

(** ** The dict of [extract_oneof_entries], read off the declarations *)

Lemma dict_get_none {V} (k : str) (d : list (str * V)) : dict_get k d = None <-> ~ In k (keys d).
Proof.
  induction d as [|[k' v] d IH]; simpl; [tauto|].
  destruct (str_eqb k k') eqn:E.
  - apply str_eqb_true in E. subst. split; [discriminate|]. intros H. exfalso. apply H. left. reflexivity.
  - rewrite IH. apply str_eqb_neq_inv in E. split; [intros H [H'|H']; [congruence|tauto]|tauto].
Qed.

Lemma decl_fold_max_eq (ds : list (str * str * nat)) (st : list (str * (str * nat)) * nat) :
  snd (fold_left decl_step ds st) = Nat.max (snd st) (list_max (map decl_number ds)).
Proof.
  revert st. induction ds as [|[[ty nm] n] ds IH]; intros [e m]; simpl; [lia|].
  rewrite IH. simpl. lia.
Qed.

(** For a field name declared more than once, the dict keeps the type and
    number of its last declaration. *)
Theorem extract_oneof_last_wins (content : str) (ds1 ds2 : list (str * str * nat))
    (ty nm : str) (n : nat) :
  field_decls content = ds1 ++ (ty, nm, n) :: ds2 ->
  (forall d, In d ds2 -> decl_name d <> nm) ->
  dict_get nm (fst (extract_oneof_entries content)) = Some (ty, n).
Proof.
  intros H Hd. rewrite extract_decls, H, fold_left_app. cbn [fold_left].
  rewrite decl_fold_get_other by exact Hd.
  destruct (fold_left decl_step ds1 ([], 0)) as [e m]. simpl.
  rewrite dict_get_set, str_eqb_refl. reflexivity.
Qed.

(** A name gets no entry exactly when no line declares it. *)
Theorem extract_oneof_missing (content nm : str) :
  dict_get nm (fst (extract_oneof_entries content)) = None
  <-> forall d, In d (field_decls content) -> decl_name d <> nm.
Proof.
  rewrite dict_get_none, entries_keys. split.
  - intros H d Hd Hn. apply H. exists d. auto.
  - intros H [d [Hd Hn]]. exact (H d Hd Hn).
Qed.

(** The returned maximum is the largest number of all matched
    declarations, superseded ones included, and 0 when there is none. *)
Theorem extract_oneof_max (content : str) :
  snd (extract_oneof_entries content) = list_max (map decl_number (field_decls content)).
Proof. rewrite extract_decls, decl_fold_max_eq. reflexivity. Qed.

Lemma extract_oneof_last_wins_witness :
  dict_get (L "a") (fst (extract_oneof_entries (L "int32 a = 1;" ++ [nl] ++ L "string a = 2;")))
  = Some (L "string", 2).
Proof.
  apply (extract_oneof_last_wins _ [(L "int32", L "a", 1)] []).
  - vm_compute. reflexivity.
  - intros _ [].
Defined.

Lemma case_fold_get_other (l : list (str * str)) (d : list (str * str)) (k : str) :
  (forall h, In h l -> strip (fst h) <> k) ->
  dict_get k (fold_left (fun cases '(g1, g2) =>
                let case_type := strip g1 in
                dict_set case_type (case_text case_type (strip g2)) cases) l d)
  = dict_get k d.
Proof.
  revert d. induction l as [|[g1 g2] l IH]; intros d H; simpl; [reflexivity|].
  rewrite IH by (intros h Hh; apply H; right; exact Hh).
  rewrite dict_get_set. destruct (str_eqb k (strip g1)) eqn:E; [|reflexivity].
  apply str_eqb_true in E. exfalso. apply (H (g1, g2)); [left; reflexivity|symmetry; exact E].
Qed.

(** [extract_switch_cases]: when a case type is matched several times,
    the dictionary keeps the text built from its last match. *)
Theorem extract_switch_last_wins (content g1 g2 : str) (xs1 xs2 : list (str * str)) :
  scan_cases (length content) content = xs1 ++ (g1, g2) :: xs2 ->
  (forall h, In h xs2 -> strip (fst h) <> strip g1) ->
  dict_get (strip g1) (extract_switch_cases content)
  = Some (case_text (strip g1) (strip g2)).
Proof.
  intros H Hd. unfold extract_switch_cases. rewrite H, fold_left_app. cbn [fold_left].
  rewrite case_fold_get_other by exact Hd.
  rewrite dict_get_set, str_eqb_refl. reflexivity.
Qed.

Lemma extract_switch_last_wins_witness :
  dict_get (L "A") (extract_switch_cases (L "case *spb.A: x" ++ [nl] ++ L "case *spb.A: y"))
  = Some (case_text (L "A") (L "y")).
Proof.
  apply (extract_switch_last_wins _ (L "A") (L " y") [(L "A", L " x" ++ [nl])] []).
  - vm_compute. reflexivity.
  - intros _ [].
Defined.

